(** * Expiring bounded cache and retrying request client

    A shallow embedding of [CacheManager] and [ApiClient] from
    [src/components/ClientSideFeatures.ts], with the properties the
    specification states about them, followed by the other classes of
    that file ([AuthenticationManager], [FormHandler], [ErrorHandler],
    [Router]) and the [App] that drives the router, with properties read
    off the code.

    Conventions of the embedding:
    - a JavaScript [number] holding a time, a size or a count is a [Z];
      [Infinity], which the eviction scan starts from, is a constructor of
      its own ([number]);
    - [Date.now()] is an explicit argument [now] of each cache operation;
    - a JavaScript [Map] is an association list in insertion order with
      unique keys ([JsMap]): [Map.prototype.forEach] visits the entries in
      that order, which decides which of several equally old entries is
      evicted. *)

From Stdlib Require Import ZArith List Sorted String Ascii Bool Lia DecimalString.
From Equations Require Import Equations.
Import ListNotations.

Local Open Scope string_scope.
Local Open Scope Z_scope.

Set Implicit Arguments.
Set Warnings "-register-all".

(** ** JavaScript values *)

(** The payloads stored in the cache are typed [any]; the responses come
    from [response.json()].  Only the truthiness of a value matters to the
    code under study. *)
Inductive JsValue : Type :=
| VUndefined
| VNull
| VBool (b : bool)
| VNum (n : Z)
| VStr (s : string)
| VArr (items : list JsValue)
| VObj (fields : list (string * JsValue)).

(** [ToBoolean] of ECMAScript, as applied by [if (x)]. *)
Definition truthy (v : JsValue) : bool :=
  match v with
  | VUndefined | VNull => false
  | VBool b => b
  | VNum n => negb (n =? 0)
  | VStr s => negb (String.eqb s "")
  | VArr _ | VObj _ => true
  end.

(** A number that may be [Infinity]. *)
Inductive number : Type :=
| Fin (z : Z)
| Infinity.

(** [a < b] for a finite [a]. *)
Definition lt_number (a : Z) (b : number) : bool :=
  match b with
  | Fin z => a <? z
  | Infinity => true
  end.

(** ** [Map<string, V>] *)

Module JsMap.
Section Ops.
Variable V : Type.

Definition t : Type := list (string * V).

Definition empty : t := [].

Fixpoint get (k : string) (m : t) : option V :=
  match m with
  | [] => None
  | (k', v) :: m' => if String.eqb k k' then Some v else get k m'
  end.

Definition has (k : string) (m : t) : bool :=
  match get k m with Some _ => true | None => false end.

(** An existing key keeps its place; a new key goes last. *)
Fixpoint set (k : string) (v : V) (m : t) : t :=
  match m with
  | [] => [(k, v)]
  | (k', v') :: m' =>
      if String.eqb k k' then (k, v) :: m' else (k', v') :: set k v m'
  end.

Definition delete (k : string) (m : t) : t :=
  filter (fun p => negb (String.eqb k (fst p))) m.

Definition clear (m : t) : t := empty.

Definition size (m : t) : Z := Z.of_nat (List.length m).

Definition keys (m : t) : list string := map fst m.

(** [forEach] with the variables its callback assigns as an
    accumulator; the callback receives (value, key) as in JavaScript. *)
Definition forEach (A : Type) (f : A -> V -> string -> A) (m : t) (acc : A) : A :=
  fold_left (fun a p => f a (snd p) (fst p)) m acc.

(** Keys are unique in every [Map]. *)
Definition wf (m : t) : Prop := NoDup (keys m).
End Ops.
End JsMap.

Arguments JsMap.empty {V}.
Arguments JsMap.get {V}.
Arguments JsMap.has {V}.
Arguments JsMap.set {V}.
Arguments JsMap.delete {V}.
Arguments JsMap.clear {V}.
Arguments JsMap.size {V}.
Arguments JsMap.keys {V}.
Arguments JsMap.forEach {V A}.
Arguments JsMap.wf {V}.

(** ** [CacheManager] *)

Record CacheOptions : Type := {
  maxAge : Z;
  maxSize : Z
}.

Record CacheEntry : Type := {
  value : JsValue;
  timestamp : Z
}.

(** The fields of the class.  The handle that [setInterval] returns in the
    constructor is not kept: there is no field for it. *)
Record CacheManager : Type := {
  cache : JsMap.t CacheEntry;
  options : CacheOptions
}.

Definition with_cache (this : CacheManager) (c : JsMap.t CacheEntry) : CacheManager :=
  {| cache := c; options := options this |}.

(** The two variables of [evictOldest] that the [forEach] callback
    assigns. *)
Definition oldest_scan (c : JsMap.t CacheEntry) (init : option string * number)
  : option string * number :=
  JsMap.forEach
    (fun (acc : option string * number) entry key =>
       if lt_number (timestamp entry) (snd acc)
       then (Some key, Fin (timestamp entry))
       else acc)
    c init.

(** [if (oldestKey)] on a [string | null]. *)
Definition key_truthy (oldestKey : option string) : bool :=
  match oldestKey with
  | Some k => truthy (VStr k)
  | None => false
  end.

Definition evictOldest (this : CacheManager) : CacheManager :=
  let '(oldestKey, _) := oldest_scan (cache this) (None, Infinity) in
  if key_truthy oldestKey
  then match oldestKey with
       | Some k => with_cache this (JsMap.delete k (cache this))
       | None => this
       end
  else this.

Definition set (now : Z) (key : string) (v : JsValue) (this : CacheManager)
  : CacheManager :=
  let this' :=
    if JsMap.size (cache this) >=? maxSize (options this)
    then evictOldest this
    else this in
  with_cache this'
    (JsMap.set key {| value := v; timestamp := now |} (cache this')).

(** [get] returns [null] for an absent or expired entry. *)
Definition get (now : Z) (key : string) (this : CacheManager)
  : JsValue * CacheManager :=
  match JsMap.get key (cache this) with
  | None => (VNull, this)
  | Some entry =>
      if now - timestamp entry >? maxAge (options this)
      then (VNull, with_cache this (JsMap.delete key (cache this)))
      else (value entry, this)
  end.

Definition clear (this : CacheManager) : CacheManager :=
  with_cache this (JsMap.clear (cache this)).

(** The callback of the cleanup interval: every entry of the map is
    visited and the expired ones are deleted from the map being
    visited. *)
Definition cleanup (now : Z) (this : CacheManager) : CacheManager :=
  with_cache this
    (JsMap.forEach
       (fun (m : JsMap.t CacheEntry) entry key =>
          if now - timestamp entry >? maxAge (options this)
          then JsMap.delete key m
          else m)
       (cache this) (cache this)).

(** *** Timers *)

(** The host's table of recurring timers: [setInterval] registers one and
    returns its handle, [clearInterval] removes the one with that
    handle. *)
Record IntervalTimer : Type := {
  handle : nat;
  delay : Z
}.

Definition TimerTable : Type := list IntervalTimer.

Definition fresh_handle (timers : TimerTable) : nat :=
  S (fold_right Nat.max 0%nat (map handle timers)).

Definition setInterval (ms : Z) (timers : TimerTable) : nat * TimerTable :=
  let h := fresh_handle timers in
  (h, (timers ++ [{| handle := h; delay := ms |}])%list).

Definition clearInterval (h : nat) (timers : TimerTable) : TimerTable :=
  filter (fun t => negb (Nat.eqb (handle t) h)) timers.

(** [setupCleanupInterval]: the handle is dropped. *)
Definition setupCleanupInterval (this : CacheManager) (timers : TimerTable)
  : TimerTable :=
  snd (setInterval (maxAge (options this)) timers).

(** [new CacheManager(options)]. *)
Definition new_CacheManager (opts : CacheOptions) (timers : TimerTable)
  : CacheManager * TimerTable :=
  let this := {| cache := JsMap.empty; options := opts |} in
  (this, setupCleanupInterval this timers).

(** The public methods of the class, and a call of one of them at clock
    reading [now]: no method takes or returns the timer table. *)
Inductive CacheCall : Type :=
| CallSet (key : string) (v : JsValue)
| CallGet (key : string)
| CallClear.

Definition call (now : Z) (c : CacheCall) (st : CacheManager * TimerTable)
  : CacheManager * TimerTable :=
  match c with
  | CallSet key v => (set now key v (fst st), snd st)
  | CallGet key => (snd (get now key (fst st)), snd st)
  | CallClear => (clear (fst st), snd st)
  end.

(** A history of the cache: method calls and firings of the cleanup
    timer, each with the clock reading at which it happens. *)
Inductive CacheEvent : Type :=
| Call (now : Z) (c : CacheCall)
| Sweep (now : Z).

Definition event (e : CacheEvent) (st : CacheManager * TimerTable)
  : CacheManager * TimerTable :=
  match e with
  | Call now c => call now c st
  | Sweep now => (cleanup now (fst st), snd st)
  end.

Definition run (es : list CacheEvent) (st : CacheManager * TimerTable)
  : CacheManager * TimerTable :=
  fold_left (fun st e => event e st) es st.

(** ** [ApiClient] *)

Record ApiConfig : Type := {
  baseUrl : string;
  timeout : Z;
  retryAttempts : Z
}.

(** A thrown [Error] object, with its message. *)
Inductive JsError : Type :=
| Error (message : string).

(** The third argument of [request]; an absent [useCache] is falsy. *)
Record RequestOptions : Type := {
  body : option JsValue;
  headers : list (string * string);
  useCache : bool
}.

(** What one call of [fetch] comes to: the promise rejects (network
    failure, or the abort that the timeout of [executeRequest] fires), or
    it yields a response with its [ok] flag, its status and the outcome of
    [response.json()]. *)
Inductive FetchOutcome : Type :=
| FetchRejected (e : JsError)
| FetchResponse (ok : bool) (status : Z) (json : JsError + JsValue).

(** The host the client runs on: [JSON.stringify] as the template literal
    of the cache key prints it, the outcome of the k-th call of [fetch]
    (counted from 0 over the life of the client) and the k-th reading of
    [Date.now()]. *)
Record Host : Type := {
  JSON_stringify : option JsValue -> string;
  fetch : nat -> FetchOutcome;
  Date_now : nat -> Z
}.

(** What the client does to the outside, in order. *)
Inductive Effect : Type :=
| Fetch (url method : string)
| Sleep (ms : Z).

Definition is_fetch (e : Effect) : bool :=
  match e with Fetch _ _ => true | Sleep _ => false end.

Definition fetch_count (es : list Effect) : nat :=
  List.length (filter is_fetch es).

(** The client's private cache and the world around it. *)
Record World : Type := {
  cacheManager : CacheManager;
  timers : TimerTable;
  effects : list Effect;
  ticks : nat
}.

(** How a computation ends: normally, or with a thrown error (for an
    [async] function: the promise resolves or rejects). *)
Inductive Completion (A : Type) : Type :=
| Normal (a : A)
| Throw (e : JsError).
Arguments Normal {A} a.
Arguments Throw {A} e.

Definition M (A : Type) : Type := World -> Completion A * World.

Definition ret {A : Type} (a : A) : M A := fun w => (Normal a, w).

Definition throw {A : Type} (e : JsError) : M A := fun w => (Throw e, w).

Definition bind {A B : Type} (m : M A) (k : A -> M B) : M B :=
  fun w =>
    match m w with
    | (Normal a, w') => k a w'
    | (Throw e, w') => (Throw e, w')
    end.

(** [try { block } catch (error) { handler }] *)
Definition try_catch {A : Type} (block : M A) (handler : JsError -> M A) : M A :=
  fun w =>
    match block w with
    | (Normal a, w') => (Normal a, w')
    | (Throw e, w') => handler e w'
    end.

Declare Scope js_scope.
Delimit Scope js_scope with js.
Notation "x <- m ;; k" := (bind m (fun x => k))
  (at level 100, m at next level, right associativity) : js_scope.
Notation "m ;;; k" := (bind m (fun _ => k))
  (at level 100, right associativity) : js_scope.

Definition perform (e : Effect) : M unit :=
  fun w =>
    (Normal tt,
     {| cacheManager := cacheManager w; timers := timers w;
        effects := (effects w ++ [e])%list; ticks := ticks w |}).

Definition with_cacheManager (w : World) (cm : CacheManager) : World :=
  {| cacheManager := cm; timers := timers w;
     effects := effects w; ticks := ticks w |}.

(** The text of a number in a template literal. *)
Definition number_text (n : Z) : string :=
  NilZero.string_of_int (Z.to_int n).

(** What [executeRequest] makes of the outcome of its [fetch]. *)
Definition response_of (o : FetchOutcome) : Completion JsValue :=
  match o with
  | FetchRejected e => Throw e
  | FetchResponse ok status json =>
      if negb ok
      then Throw (Error ("HTTP error! status: " ++ number_text status)%string)
      else match json with
           | inl e => Throw e
           | inr v => Normal v
           end
  end.

Section Client.
Variable host : Host.
Variable config : ApiConfig.

Definition read_clock : M Z :=
  fun w =>
    (Normal (Date_now host (ticks w)),
     {| cacheManager := cacheManager w; timers := timers w;
        effects := effects w; ticks := S (ticks w) |}).

(** [this.cacheManager.get(key)] and [this.cacheManager.set(key, v)],
    with the readings of the clock they take: [get] returns [null]
    before it reads the clock when the key is absent, and reads it once
    when the key is present; [set] reads it once. *)
Definition cacheManager_get (key : string) : M JsValue :=
  fun w =>
    match JsMap.get key (cache (cacheManager w)) with
    | None => (Normal VNull, w)
    | Some _ =>
        (t <- read_clock ;;
         fun w' =>
           let '(v, cm) := get t key (cacheManager w') in
           (Normal v, with_cacheManager w' cm))%js w
    end.

Definition cacheManager_set (key : string) (v : JsValue) : M unit :=
  (t <- read_clock ;;
   fun w => (Normal tt, with_cacheManager w (set t key v (cacheManager w))))%js.

(** [executeRequest]: one call of [fetch]; the headers and the body of
    the call are not recorded. *)
Definition executeRequest (method endpoint : string) (opts : RequestOptions)
  : M JsValue :=
  fun w =>
    let o := fetch host (fetch_count (effects w)) in
    match perform (Fetch (baseUrl config ++ endpoint)%string method) w with
    | (_, w') => (response_of o, w')
    end.

Definition cacheKey (method endpoint : string) (opts : RequestOptions) : string :=
  (method ++ ":" ++ endpoint ++ ":" ++ JSON_stringify host (body opts))%string.

(** The [while] loop of [request], from the value [attempt] has when the
    condition is tested. *)
Equations? attempt_loop (method endpoint : string) (opts : RequestOptions)
  (attempt : Z) : M JsValue
  by wf (Z.to_nat (retryAttempts config - attempt)) lt :=
  attempt_loop method endpoint opts attempt
    with Z_lt_dec attempt (retryAttempts config) := {
    | left _ =>
        try_catch
          (response <- executeRequest method endpoint opts ;;
           (if useCache opts
            then cacheManager_set (cacheKey method endpoint opts) response
            else ret tt) ;;;
           ret response)%js
          (fun error =>
             let attempt' := attempt + 1 in
             if attempt' =? retryAttempts config
             then throw error
             else (perform (Sleep (1000 * attempt')) ;;;
                   attempt_loop method endpoint opts attempt')%js)
    | right _ =>
        throw (Error "Request failed after all retry attempts") }.
Proof. lia. Qed.

Definition request (method endpoint : string) (opts : RequestOptions)
  : M JsValue :=
  if useCache opts
  then (cached <- cacheManager_get (cacheKey method endpoint opts) ;;
        if truthy cached
        then ret cached
        else attempt_loop method endpoint opts 0)%js
  else attempt_loop method endpoint opts 0.

(** [new ApiClient(config)] on a host with the timers [ts]. *)
Definition new_ApiClient (ts : TimerTable) : World :=
  let '(cm, ts') :=
    new_CacheManager {| maxAge := 300000; maxSize := 100 |} ts in
  {| cacheManager := cm; timers := ts'; effects := []; ticks := 0 |}.
End Client.

(** ** Notions used in the statements *)

Local Open Scope list_scope.

(** An operation that only removes entries. *)
Definition shrinks (c' c : JsMap.t CacheEntry) : Prop :=
  incl (JsMap.keys c') (JsMap.keys c) /\
  (List.length c' <= List.length c)%nat.

(** The keys that a history stores under. *)
Definition stored_key (e : CacheEvent) : option string :=
  match e with
  | Call _ (CallSet k _) => Some k
  | _ => None
  end.

(** The capacity bound, together with what keeps it: no key is the
    empty string. *)
Definition bounded (this : CacheManager) : Prop :=
  Forall (fun k => k <> "") (JsMap.keys (cache this)) /\
  JsMap.size (cache this) <= maxSize (options this).

(** An insertion: the clock reading, the key and the value. *)
Definition Insertion : Type := (Z * string * JsValue)%type.

Definition ins_time (i : Insertion) : Z := fst (fst i).
Definition ins_key (i : Insertion) : string := snd (fst i).

Definition entry_of (i : Insertion) : string * CacheEntry :=
  (ins_key i, {| value := snd i; timestamp := ins_time i |}).

Definition set_all (l : list Insertion) (this : CacheManager) : CacheManager :=
  fold_left (fun cm i => set (ins_time i) (ins_key i) (snd i) cm) l this.

(** A cache of capacity 1 and one of capacity 2, as constructed. *)
Definition cache_of_one : CacheManager :=
  fst (new_CacheManager {| maxAge := 300000; maxSize := 1 |} []).

Definition cache_of_two : CacheManager :=
  fst (new_CacheManager {| maxAge := 300000; maxSize := 2 |} []).

(** The world after further effects. *)
Definition add_effects (w : World) (es : list Effect) : World :=
  {| cacheManager := cacheManager w; timers := timers w;
     effects := effects w ++ es; ticks := ticks w |}.

(** The transport fails when [executeRequest] throws: the call rejects,
    the status is not a success, or the body does not parse. *)
Definition fails (o : FetchOutcome) : Prop :=
  exists e, response_of o = Throw e.

(** What a request does to the outside when [remaining] attempts, the
    first of them made with the counter at [attempt], all fail and the
    last of them is the last one allowed. *)
Fixpoint backoff_trace (f : Effect) (attempt : Z) (remaining : nat) : list Effect :=
  match remaining with
  | O => []
  | S r =>
      match r with
      | O => [f]
      | S _ => f :: Sleep (1000 * (attempt + 1)) :: backoff_trace f (attempt + 1) r
      end
  end.

(** The error thrown after the loop of [request]. *)
Definition exhausted : JsError :=
  Error "Request failed after all retry attempts".

(** The world once [cacheManager.get] has returned: as it was when the
    key is absent, and else with one more reading of the clock taken and
    the entry deleted if it had expired. *)
Definition looked_up (host : Host) (key : string) (w : World) : World :=
  match JsMap.get key (cache (cacheManager w)) with
  | None => w
  | Some _ =>
      {| cacheManager := snd (get (Date_now host (ticks w)) key (cacheManager w));
         timers := timers w; effects := effects w; ticks := S (ticks w) |}
  end.

(** The value [cacheManager.get] returns for the key of a request. *)
Definition cached (host : Host) (method endpoint : string)
  (opts : RequestOptions) (w : World) : JsValue :=
  fst (get (Date_now host (ticks w)) (cacheKey host method endpoint opts)
         (cacheManager w)).

(** A request hits the cache when it asks for the cache and the value it
    gets passes [if (cached)]. *)
Definition cache_hit (host : Host) (method endpoint : string)
  (opts : RequestOptions) (w : World) : bool :=
  useCache opts && truthy (cached host method endpoint opts w).

(** The worlds a client can be in: as constructed, after a request, after
    a firing of the cleanup timer of its cache. *)
Inductive reachable (host : Host) (config : ApiConfig) : World -> Prop :=
| reach_new ts : reachable host config (new_ApiClient ts)
| reach_request w method endpoint opts :
    reachable host config w ->
    reachable host config (snd (request host config method endpoint opts w))
| reach_sweep w t :
    reachable host config w ->
    reachable host config (with_cacheManager w (cleanup t (cacheManager w))).

Definition demo_config (attempts : Z) : ApiConfig :=
  {| baseUrl := "https://api.example.com"; timeout := 5000;
     retryAttempts := attempts |}.

Definition cached_request : RequestOptions :=
  {| body := None; headers := []; useCache := true |}.

Definition plain_request : RequestOptions :=
  {| body := None; headers := []; useCache := false |}.

(** A host whose endpoint answers with the JSON number 0. *)
Definition count_host : Host :=
  {| JSON_stringify := fun _ => "undefined";
     fetch := fun _ => FetchResponse true 200 (inr (VNum 0));
     Date_now := fun k => Z.of_nat k |}.

(** A host whose first two calls are rejected. *)
Definition flaky_host : Host :=
  {| JSON_stringify := fun _ => "undefined";
     fetch := fun k =>
       if (k <? 2)%nat
       then FetchRejected (Error "Failed to fetch")
       else FetchResponse true 200 (inr (VStr "ok"));
     Date_now := fun k => Z.of_nat k |}.

(** A host that answers every call with status 503. *)
Definition dead_host : Host :=
  {| JSON_stringify := fun _ => "undefined";
     fetch := fun _ => FetchResponse false 503 (inr VNull);
     Date_now := fun k => Z.of_nat k |}.

(** What a request does to the outside while [k] attempts fail, the first
    of them made with the counter at [attempt], and another attempt is
    still allowed after each. *)
Fixpoint retry_prefix (f : Effect) (attempt : Z) (k : nat) : list Effect :=
  match k with
  | O => []
  | S k' => f :: Sleep (1000 * (attempt + 1)) :: retry_prefix f (attempt + 1) k'
  end.

(** An entry that the sweep at clock reading [now] deletes. *)
Definition expired (opts : CacheOptions) (now : Z) (e : CacheEntry) : bool :=
  now - timestamp e >? maxAge opts.

(** A wait of the retry loop of a client allowed [attempts] attempts: a
    positive multiple of 1000 ms below 1000 times [attempts]. *)
Definition backoff_wait (attempts : Z) (e : Effect) : Prop :=
  match e with
  | Fetch _ _ => True
  | Sleep ms => exists i, 1 <= i < attempts /\ ms = 1000 * i
  end.

(** ** [AuthenticationManager] *)

Module Auth.

Record AuthToken : Type := {
  token : string;
  expiresAt : Z
}.

(** The fields of the object. *)
Record Manager : Type := {
  currentToken : option AuthToken;
  refreshInterval : option nat
}.

(** What the manager reaches of the host: [localStorage] (with room for
    what is stored) and the table of recurring timers. *)
Record Env : Type := {
  storage : JsMap.t string;
  intervals : TimerTable
}.

(** The manager that the constructor leaves when [localStorage] holds no
    ['auth_token']: [loadTokenFromStorage] does nothing. *)
Definition initial : Manager :=
  {| currentToken := None; refreshInterval := None |}.

Definition setItem (k v : string) (env : Env) : Env :=
  {| storage := JsMap.set k v (storage env); intervals := intervals env |}.

Definition removeItem (k : string) (env : Env) : Env :=
  {| storage := JsMap.delete k (storage env); intervals := intervals env |}.

Definition isAuthenticated (now : Z) (this : Manager) : bool :=
  match currentToken this with
  | Some t => expiresAt t >? now
  | None => false
  end.

(** [this.currentToken?.token ?? null] *)
Definition getToken (this : Manager) : option string :=
  match currentToken this with
  | Some t => Some (token t)
  | None => None
  end.

(** The timer of an earlier call is cleared before the new one is
    registered, and the new handle is kept. *)
Definition setupRefreshInterval (st : Manager * Env) : Manager * Env :=
  let '(this, env) := st in
  let timers1 :=
    match refreshInterval this with
    | Some h => clearInterval h (intervals env)
    | None => intervals env
    end in
  let '(h, timers2) := setInterval 60000 timers1 in
  ({| currentToken := currentToken this; refreshInterval := Some h |},
   {| storage := storage env; intervals := timers2 |}).

Definition logout (st : Manager * Env) : Manager * Env :=
  let '(this, env) := st in
  let env1 := removeItem "auth_token" env in
  match refreshInterval this with
  | Some h =>
      ({| currentToken := None; refreshInterval := None |},
       {| storage := storage env1; intervals := clearInterval h (intervals env1) |})
  | None =>
      ({| currentToken := None; refreshInterval := refreshInterval this |}, env1)
  end.

Section Stringify.
(** [JSON.stringify] of a token. *)
Variable JSON_stringify_token : AuthToken -> string.

Definition setToken (tok : string) (exp : Z) (st : Manager * Env) : Manager * Env :=
  let '(this, env) := st in
  let t := {| token := tok; expiresAt := exp |} in
  setupRefreshInterval
    ({| currentToken := Some t; refreshInterval := refreshInterval this |},
     setItem "auth_token" (JSON_stringify_token t) env).

(** What happens to a manager: a token arrives (from [login] or from a
    refresh that succeeded), or [logout] is called (by the user, or by a
    refresh that failed). *)
Inductive Op : Type :=
| SetToken (tok : string) (exp : Z)
| Logout.

Definition step (st : Manager * Env) (o : Op) : Manager * Env :=
  match o with
  | SetToken tok exp => setToken tok exp st
  | Logout => logout st
  end.

Definition run (ops : list Op) (st : Manager * Env) : Manager * Env :=
  fold_left step ops st.
End Stringify.

End Auth.

(** ** The headers of [executeRequest] *)

(** [{...src}] within an object literal: the properties of [src] are
    defined on the object in order, a later one replacing the value of an
    earlier one of the same name.  (Objects are looked up by name below;
    the order that integer-like names take is not modelled.) *)
Definition spread (src : list (string * string)) (obj : JsMap.t string)
  : JsMap.t string :=
  fold_left (fun o p => JsMap.set (fst p) (snd p) o) src obj.

(** A [string | null] within a template literal. *)
Definition template_text (s : option string) : string :=
  match s with
  | Some s => s
  | None => "null"
  end.

(** The [headers] object that [executeRequest] passes to [fetch]. *)
Definition request_headers (auth : Auth.Manager) (now : Z) (opts : RequestOptions)
  : JsMap.t string :=
  let h := JsMap.set "Content-Type" "application/json" JsMap.empty in
  let h := spread (headers opts) h in
  spread
    (if Auth.isAuthenticated now auth
     then [("Authorization",
            ("Bearer " ++ template_text (Auth.getToken auth))%string)]
     else [])
    h.

(** ** [FormHandler] *)

(** [obj[name] = v] on an object created by [{}], as far as its own
    properties go: the name ['__proto__'] reaches the setter inherited
    from [Object.prototype] and defines no property. *)
Definition obj_assign (V : Type) (name : string) (v : V) (obj : JsMap.t V)
  : JsMap.t V :=
  if String.eqb name "__proto__" then obj else JsMap.set name v obj.

Module Form.

(** A validator returns an error message or [null]. *)
Definition Validator : Type := string -> option string.

Record FormField : Type := {
  value : string;
  validators : list Validator;
  errors : list string
}.

(** The [fields] map of the handler. *)
Definition t : Type := JsMap.t FormField.

Definition addField (name initialValue : string) (vs : list Validator)
  (fields : t) : t :=
  JsMap.set name {| value := initialValue; validators := vs; errors := [] |} fields.

(** [.filter(error => error !== null)] *)
Fixpoint non_null (l : list (option string)) : list string :=
  match l with
  | [] => []
  | Some s :: l' => s :: non_null l'
  | None :: l' => non_null l'
  end.

(** The field object with [field.errors] assigned by [validateField]. *)
Definition validated (field : FormField) : FormField :=
  {| value := value field;
     validators := validators field;
     errors := non_null (map (fun validator => validator (value field))
                           (validators field)) |}.

Definition validateField (name : string) (fields : t) : t :=
  match JsMap.get name fields with
  | Some field => JsMap.set name (validated field) fields
  | None => fields
  end.

Definition setValue (name v : string) (fields : t) : t :=
  match JsMap.get name fields with
  | Some field =>
      validateField name
        (JsMap.set name
           {| value := v; validators := validators field; errors := errors field |}
           fields)
  | None => fields
  end.

(** [validateAll]: the variable [isValid] and the fields, whose objects
    [validateField] updates while [forEach] visits them. *)
Definition validateAll (fields : t) : bool * t :=
  JsMap.forEach
    (fun (acc : bool * t) (_ : FormField) name =>
       let fields' := validateField name (snd acc) in
       let invalid :=
         match JsMap.get name fields' with
         | Some field => (0 <? List.length (errors field))%nat
         | None => false
         end in
       (if invalid then false else fst acc, fields'))
    fields (true, fields).

(** The own properties of the objects that [getValues] and [getErrors]
    return. *)
Definition getValues (fields : t) : JsMap.t string :=
  JsMap.forEach (fun values field name => obj_assign name (value field) values)
    fields JsMap.empty.

Definition getErrors (fields : t) : JsMap.t (list string) :=
  JsMap.forEach (fun errs field name => obj_assign name (errors field) errs)
    fields JsMap.empty.

(** Every validator of the field accepts its value. *)
Definition accepted (field : FormField) : bool :=
  forallb (fun validator : Validator =>
             match validator (value field) with
             | None => true
             | Some _ => false
             end)
    (validators field).

End Form.

(** ** [ErrorHandler] *)

Module Errors.

Record ErrorHandlerConfig : Type := {
  logErrors : bool;
  showErrorModal : bool;
  errorReportingUrl : option string
}.

(** A listener function, by its identity. *)
Definition Listener : Type := nat.

Record ErrorHandler : Type := {
  config : ErrorHandlerConfig;
  errorListeners : list Listener
}.

(** What handling an error does to the outside, in order, up to the
    return of [handleError]: [console.error] with its first argument, the
    modal appended to the document, the [fetch] that [reportError]
    starts, the call of a listener. *)
Inductive Effect : Type :=
| ConsoleError (label : string)
| ShowModal (message : string)
| PostReport (url : string)
| Invoke (l : Listener) (error : JsError).

Definition addErrorListener (l : Listener) (this : ErrorHandler) : ErrorHandler :=
  {| config := config this; errorListeners := errorListeners this ++ [l] |}.

Definition removeErrorListener (l : Listener) (this : ErrorHandler) : ErrorHandler :=
  {| config := config this;
     errorListeners := filter (fun l' => negb (Nat.eqb l' l)) (errorListeners this) |}.

Section Listeners.
(** Whether a listener throws when it is called with an error.  (The
    listeners do not call back into the handler.) *)
Variable throws : Listener -> JsError -> bool.

Definition notifyListeners (this : ErrorHandler) (error : JsError) : list Effect :=
  flat_map
    (fun l =>
       Invoke l error ::
       (if throws l error then [ConsoleError "Error in error listener:"] else []))
    (errorListeners this).

Definition handleError (this : ErrorHandler) (error : JsError) : list Effect :=
  (if logErrors (config this) then [ConsoleError "Error caught:"] else []) ++
  (if showErrorModal (config this)
   then [ShowModal (match error with Error message => message end)]
   else []) ++
  (match errorReportingUrl (config this) with
   | Some url => if truthy (VStr url) then [PostReport url] else []
   | None => []
   end) ++
  notifyListeners this error.
End Listeners.

(** The listeners called, in order. *)
Definition invoked (es : list Effect) : list Listener :=
  flat_map (fun e => match e with Invoke l _ => [l] | _ => [] end) es.

(** The static side of the class: [ErrorHandler.instance], and how many
    times [setupGlobalHandlers] has installed its handlers on [window]. *)
Record Static : Type := {
  instance : option ErrorHandler;
  installed : nat
}.

Definition getInstance (cfg : option ErrorHandlerConfig) (s : Static)
  : option ErrorHandler * Static :=
  let s' :=
    match instance s, cfg with
    | None, Some c =>
        {| instance := Some {| config := c; errorListeners := [] |};
           installed := S (installed s) |}
    | _, _ => s
    end in
  (instance s', s').

Definition getInstances (cfgs : list (option ErrorHandlerConfig)) (s : Static)
  : Static :=
  fold_left (fun s cfg => snd (getInstance cfg s)) cfgs s.

(** The first configuration passed. *)
Fixpoint first_config (cfgs : list (option ErrorHandlerConfig))
  : option ErrorHandlerConfig :=
  match cfgs with
  | [] => None
  | Some c :: _ => Some c
  | None :: cfgs' => first_config cfgs'
  end.

End Errors.

(** ** [Router] and the [App] that uses it *)

Module Routing.

Section Router.
(** What a route handler is, as far as the router goes. *)
Variable Handler : Type.

Record Router : Type := {
  routes : JsMap.t Handler;
  currentPath : string
}.

Definition addRoute (path : string) (handler : Handler) (this : Router) : Router :=
  {| routes := JsMap.set path handler (routes this); currentPath := currentPath this |}.

(** [handleRoute] with [window.location.pathname] being [pathname]: the
    router, and the handler that is called, if there is one. *)
Definition handleRoute (pathname : string) (this : Router)
  : Router * option Handler :=
  ({| routes := routes this; currentPath := pathname |},
   JsMap.get pathname (routes this)).

(** [new Router()]: no route yet when [handleRoute] runs. *)
Definition new_Router (pathname : string) : Router * option Handler :=
  handleRoute pathname {| routes := JsMap.empty; currentPath := "" |}.

Definition addRoutes (rs : list (string * Handler)) (this : Router) : Router :=
  fold_left (fun r p => addRoute (fst p) (snd p) r) rs this.
End Router.

Arguments routes {Handler}.
Arguments currentPath {Handler}.

(** The [App]: the keys of its explorations, in the order of the map. *)
Definition explorations : list string :=
  ["hooks"; "browser-apis"; "security"; "testing"; "build"; "performance"].

(** The router, whose handler for ['/' + key] calls [showExploration(key)],
    the exploration on show and [window.location.pathname]. *)
Record App : Type := {
  router : Router string;
  currentExploration : option string;
  pathname : string
}.

(** What the app does to its explorations. *)
Inductive Effect : Type :=
| Cleanup (key : string)
| Initialize (key : string).

Definition showExploration (key : string) (app : App) : App * list Effect :=
  let cleaned :=
    match currentExploration app with
    | Some c => [Cleanup c]
    | None => []
    end in
  if existsb (String.eqb key) explorations
  then ({| router := router app; currentExploration := Some key;
           pathname := pathname app |},
        cleaned ++ [Initialize key])
  else (app, cleaned).

(** The call of the handler that [handleRoute] found. *)
Definition dispatch (found : option string) (app : App) : App * list Effect :=
  match found with
  | Some key => showExploration key app
  | None => (app, [])
  end.

(** [initializeExplorations] constructs the six explorations; the
    constructors of five of them call [initialize] themselves, that of
    the performance exploration does not. *)
Definition constructed : list Effect :=
  [Initialize "hooks"; Initialize "browser-apis"; Initialize "security";
   Initialize "testing"; Initialize "build"].

(** [new App()] with the page at [at_load]: the explorations are
    constructed, then the router, then the routes are added. *)
Definition new_App (at_load : string) : App * list Effect :=
  let '(r, found) := new_Router string at_load in
  let app := {| router := r; currentExploration := None; pathname := at_load |} in
  let '(app, es) := dispatch found app in
  ({| router := addRoutes (map (fun key => (("/" ++ key)%string, key)) explorations)
                  (router app);
      currentExploration := currentExploration app;
      pathname := pathname app |}, constructed ++ es).

Section Navigation.
(** [history.pushState({}, '', url)] with the page at a pathname: the new
    pathname, or nothing when the call throws. *)
Variable pushState : string -> string -> option string.

(** [router.navigate(path)]; nothing changes when [pushState] throws. *)
Definition navigate (path : string) (app : App) : App * list Effect :=
  match pushState (pathname app) path with
  | Some p =>
      let '(r, found) := handleRoute p (router app) in
      dispatch found
        {| router := r; currentExploration := currentExploration app;
           pathname := p |}
  | None => (app, [])
  end.

(** A click on the link of nav with [data-path] being [path]. *)
Definition click (path : string) (app : App) : App * list Effect :=
  if truthy (VStr path) then navigate ("/" ++ path)%string app else (app, []).

(** The listener of [popstate] that the router registers, called once
    the browser has moved the page to [p]. *)
Definition popstate (p : string) (app : App) : App * list Effect :=
  let '(r, found) := handleRoute p (router app) in
  dispatch found
    {| router := r; currentExploration := currentExploration app; pathname := p |}.

Inductive Event : Type :=
| Click (path : string)
| Popstate (p : string).

Definition react (e : Event) (app : App) : App * list Effect :=
  match e with
  | Click path => click path app
  | Popstate p => popstate p app
  end.

(** The app after the events, with all it has done so far. *)
Definition run (events : list Event) (st : App * list Effect)
  : App * list Effect :=
  fold_left
    (fun st e => let '(app, es) := react e (fst st) in (app, snd st ++ es))
    events st.
End Navigation.

(** The exploration that is live after the effects, starting with
    [current] live, when every effect is in order: an exploration is
    initialised only while none is live, and cleaned up only while it is
    the live one. *)
Fixpoint live (current : option string) (es : list Effect)
  : option (option string) :=
  match es with
  | [] => Some current
  | Initialize key :: es' =>
      match current with
      | None => live (Some key) es'
      | Some _ => None
      end
  | Cleanup key :: es' =>
      match current with
      | Some c => if String.eqb c key then live None es' else None
      | None => None
      end
  end.

(** The explorations initialised and cleaned up when the keys are shown
    one after another, from the exploration on show. *)
Fixpoint shown (current : option string) (keys : list string) : list Effect :=
  match keys with
  | [] => []
  | key :: keys' =>
      match current with
      | Some c => Cleanup c :: Initialize key :: shown (Some key) keys'
      | None => Initialize key :: shown (Some key) keys'
      end
  end.

End Routing.

(** The timers of a manager: the ones it found and, while it holds a
    token, its own refresh timer. *)
Definition auth_inv (base : TimerTable) (st : Auth.Manager * Auth.Env) : Prop :=
  (Auth.currentToken (fst st) = None /\
   Auth.refreshInterval (fst st) = None /\
   Auth.intervals (snd st) = base) \/
  (Auth.currentToken (fst st) <> None /\
   Auth.refreshInterval (fst st) = Some (fresh_handle base) /\
   Auth.intervals (snd st) =
   base ++ [{| handle := fresh_handle base; delay := 60000 |}]).

(** A validator that rejects the empty string. *)
Definition required : Form.Validator :=
  fun s => if String.eqb s "" then Some "required" else None.

(** The routes of the app once it is constructed. *)
Definition app_routes : JsMap.t string :=
  map (fun key => (("/" ++ key)%string, key)) Routing.explorations.

(** The state of an app whose effects since its construction are in
    order and whose routes all show explorations that exist. *)
Definition app_inv (st : Routing.App * list Routing.Effect) : Prop :=
  (exists es,
     snd st = Routing.constructed ++ es /\
     Routing.live None es = Some (Routing.currentExploration (fst st))) /\
  (forall p key,
     JsMap.get p (Routing.routes (Routing.router (fst st))) = Some key ->
     existsb (String.eqb key) Routing.explorations = true).

(** * Properties *)

(** ** [Map] *)

Module JsMapFacts.
Section Facts.

Variable V : Type.
Implicit Types (m : JsMap.t V) (k : string) (v : V).

Lemma get_set_same m k v : JsMap.get k (JsMap.set k v m) = Some v.
Proof.
  induction m as [|[k' v'] m IH]; simpl.
  - now rewrite String.eqb_refl.
  - destruct (String.eqb k k') eqn:E; simpl; rewrite ?String.eqb_refl, ?E; auto.
Qed.

Lemma get_set_other m k k' v :
  k <> k' -> JsMap.get k' (JsMap.set k v m) = JsMap.get k' m.
Proof.
  intros Hne. induction m as [|[k0 v0] m IH]; simpl.
  - destruct (String.eqb_spec k' k); congruence.
  - destruct (String.eqb_spec k k0) as [->|]; simpl.
    + destruct (String.eqb_spec k' k0); congruence.
    + now rewrite IH.
Qed.

Lemma get_delete_same m k : JsMap.get k (JsMap.delete k m) = None.
Proof.
  induction m as [|[k' v'] m IH]; simpl; auto.
  destruct (String.eqb k k') eqn:E; simpl; rewrite ?E; auto.
Qed.

Lemma get_delete_other m k k' :
  k <> k' -> JsMap.get k' (JsMap.delete k m) = JsMap.get k' m.
Proof.
  intros Hne. induction m as [|[k0 v0] m IH]; simpl; auto.
  destruct (String.eqb_spec k k0) as [->|]; simpl.
  - destruct (String.eqb_spec k' k0); congruence.
  - now rewrite IH.
Qed.

Lemma get_In m k v : JsMap.get k m = Some v -> In (k, v) m.
Proof.
  induction m as [|[k' v'] m IH]; simpl; [discriminate|].
  destruct (String.eqb_spec k k') as [->|]; intros H.
  - left. congruence.
  - right. auto.
Qed.

Lemma In_get m k v : JsMap.wf m -> In (k, v) m -> JsMap.get k m = Some v.
Proof.
  unfold JsMap.wf, JsMap.keys.
  induction m as [|[k' v'] m IH]; simpl; [tauto|].
  intros Hnd [Heq|Hin]; inversion Hnd as [|? ? Hnotin Hnd']; subst.
  - inversion Heq; subst. now rewrite String.eqb_refl.
  - destruct (String.eqb_spec k k') as [->|]; auto.
    exfalso. apply Hnotin. now apply (in_map fst) in Hin.
Qed.

Lemma get_None_keys m k : JsMap.get k m = None <-> ~ In k (JsMap.keys m).
Proof.
  induction m as [|[k' v'] m IH]; simpl; [tauto|].
  destruct (String.eqb_spec k k') as [->|Hne].
  - split; [discriminate | intros H; exfalso; auto].
  - rewrite IH. split; [intros H [?|?]; [congruence | tauto] | tauto].
Qed.

(** A new key goes last. *)
Lemma set_fresh m k v :
  ~ In k (JsMap.keys m) -> JsMap.set k v m = (m ++ [(k, v)])%list.
Proof.
  induction m as [|[k' v'] m IH]; simpl; auto.
  intros Hnotin. destruct (String.eqb_spec k k') as [->|]; [tauto|].
  rewrite IH; tauto.
Qed.

Lemma keys_set m k v :
  JsMap.keys (JsMap.set k v m) =
  if JsMap.has k m then JsMap.keys m else (JsMap.keys m ++ [k])%list.
Proof.
  unfold JsMap.has.
  induction m as [|[k' v'] m IH]; simpl; auto.
  destruct (String.eqb_spec k k') as [->|]; simpl; auto.
  rewrite IH. now destruct (JsMap.get k m).
Qed.

Lemma length_set_le m k v :
  (List.length (JsMap.set k v m) <= S (List.length m))%nat.
Proof.
  induction m as [|[k' v'] m IH]; simpl; auto.
  destruct (String.eqb k k'); simpl; lia.
Qed.

Lemma length_delete_le m k :
  (List.length (JsMap.delete k m) <= List.length m)%nat.
Proof. apply filter_length_le. Qed.

Lemma length_delete_lt m k :
  In k (JsMap.keys m) ->
  (List.length (JsMap.delete k m) < List.length m)%nat.
Proof.
  induction m as [|[k' v'] m IH]; simpl; [tauto|].
  destruct (String.eqb_spec k k') as [->|Hne]; simpl.
  - intros _. pose proof (length_delete_le m k'). unfold JsMap.delete in *. lia.
  - intros [?|Hin]; [congruence|]. specialize (IH Hin).
    unfold JsMap.delete in *. lia.
Qed.

Lemma keys_delete m k :
  JsMap.keys (JsMap.delete k m) =
  filter (fun k' => negb (String.eqb k k')) (JsMap.keys m).
Proof.
  induction m as [|[k' v'] m IH]; simpl; auto.
  destruct (String.eqb k k'); simpl; now rewrite ?IH.
Qed.

Lemma delete_absent m k : ~ In k (JsMap.keys m) -> JsMap.delete k m = m.
Proof.
  induction m as [|[k' v'] m IH]; simpl; auto.
  intros Hnotin. destruct (String.eqb_spec k k') as [->|]; simpl; [tauto|].
  rewrite IH; tauto.
Qed.

Lemma wf_set m k v : JsMap.wf m -> JsMap.wf (JsMap.set k v m).
Proof.
  unfold JsMap.wf. intros Hnd. rewrite keys_set. unfold JsMap.has.
  destruct (JsMap.get k m) eqn:E; auto.
  apply get_None_keys in E.
  apply NoDup_app; auto.
  - constructor; [simpl; tauto | constructor].
  - intros x Hx [<-|[]]. tauto.
Qed.

Lemma wf_delete m k : JsMap.wf m -> JsMap.wf (JsMap.delete k m).
Proof.
  unfold JsMap.wf. intros Hnd. rewrite keys_delete. now apply NoDup_filter.
Qed.

Lemma wf_empty : JsMap.wf (@JsMap.empty V).
Proof. constructor. Qed.
End Facts.
End JsMapFacts.

(** ** The eviction scan *)

Section Scan.

Implicit Types (c : JsMap.t CacheEntry) (k : string) (e : CacheEntry).

Lemma oldest_scan_cons c k e init :
  oldest_scan ((k, e) :: c) init =
  oldest_scan c
    (if lt_number (timestamp e) (snd init)
     then (Some k, Fin (timestamp e))
     else init).
Proof. reflexivity. Qed.

(** Once a key is held, the scan holds a key with a finite time. *)
Lemma oldest_scan_some c k0 t0 :
  exists k t, oldest_scan c (Some k0, Fin t0) = (Some k, Fin t).
Proof.
  revert k0 t0. induction c as [|[k e] c IH]; intros k0 t0.
  - now exists k0, t0.
  - rewrite oldest_scan_cons; simpl. destruct (timestamp e <? t0); apply IH.
Qed.

Lemma oldest_scan_nonempty c :
  c <> [] -> exists k t, oldest_scan c (None, Infinity) = (Some k, Fin t).
Proof.
  destruct c as [|[k e] c]; [congruence|]. intros _.
  rewrite oldest_scan_cons; simpl. apply oldest_scan_some.
Qed.

(** The key held at the end is the one held at the start or a key of
    the map, and its entry is no younger than any entry visited. *)
Lemma oldest_scan_min c k0 t0 k t :
  oldest_scan c (Some k0, Fin t0) = (Some k, Fin t) ->
  t <= t0 /\
  (forall k' e', In (k', e') c -> t <= timestamp e') /\
  ((k = k0 /\ t = t0) \/ exists e, In (k, e) c /\ timestamp e = t).
Proof.
  revert k0 t0. induction c as [|[k1 e1] c IH]; intros k0 t0 H.
  - inversion H; subst. repeat split; [lia | intros ? ? [] | auto].
  - rewrite oldest_scan_cons in H; simpl in H.
    destruct (Z.ltb_spec (timestamp e1) t0) as [Hlt|Hge];
      apply IH in H as (Hle & Hall & Hwho).
    + repeat split; [lia | |].
      * intros k' e' [Heq|Hin]; [inversion Heq; subst; lia | eauto].
      * right. destruct Hwho as [[-> ->]|(e & Hin & Ht)].
        -- exists e1. simpl; auto.
        -- exists e. simpl; auto.
    + repeat split; [lia | |].
      * intros k' e' [Heq|Hin]; [inversion Heq; subst; lia | eauto].
      * destruct Hwho as [?|(e & Hin & Ht)]; [auto|].
        right. exists e. simpl; auto.
Qed.

Lemma oldest_scan_spec c k t :
  oldest_scan c (None, Infinity) = (Some k, Fin t) ->
  (exists e, In (k, e) c /\ timestamp e = t) /\
  (forall k' e', In (k', e') c -> t <= timestamp e').
Proof.
  destruct c as [|[k1 e1] c]; [discriminate|].
  rewrite oldest_scan_cons; simpl. intros H.
  apply oldest_scan_min in H as (Hle & Hall & Hwho). split.
  - destruct Hwho as [[-> ->]|(e & Hin & Ht)]; [exists e1 | exists e]; simpl; auto.
  - intros k' e' [Heq|Hin]; [inversion Heq; subst; lia | eauto].
Qed.

(** Ties go to the entry visited first: a held key is replaced only by
    a strictly older entry. *)
Lemma oldest_scan_keep c k0 t0 :
  (forall k' e', In (k', e') c -> t0 <= timestamp e') ->
  oldest_scan c (Some k0, Fin t0) = (Some k0, Fin t0).
Proof.
  induction c as [|[k1 e1] c IH]; intros Hall; [reflexivity|].
  rewrite oldest_scan_cons; simpl.
  destruct (Z.ltb_spec (timestamp e1) t0) as [Hlt|Hge].
  - specialize (Hall k1 e1 (or_introl eq_refl)). lia.
  - apply IH. intros k' e' Hin. apply (Hall k' e'). now right.
Qed.

Lemma oldest_scan_head c k e :
  (forall k' e', In (k', e') c -> timestamp e <= timestamp e') ->
  oldest_scan ((k, e) :: c) (None, Infinity) = (Some k, Fin (timestamp e)).
Proof. intros Hall. rewrite oldest_scan_cons; simpl. now apply oldest_scan_keep. Qed.
End Scan.

(** ** [evictOldest] and [set] *)

Section Evict.

Implicit Types (this : CacheManager) (k : string) (e : CacheEntry).

Lemma options_with_cache this c : options (with_cache this c) = options this.
Proof. reflexivity. Qed.

Lemma options_evictOldest this : options (evictOldest this) = options this.
Proof.
  unfold evictOldest. destruct (oldest_scan _ _) as [[k|] n]; auto.
  now destruct (key_truthy _).
Qed.

Lemma options_set t k v this : options (set t k v this) = options this.
Proof.
  unfold set. rewrite options_with_cache.
  destruct (_ >=? _); auto using options_evictOldest.
Qed.

(** What [evictOldest] does, by the key the scan ends on. *)
Lemma evictOldest_cases this :
  (cache this = [] /\ evictOldest this = this) \/
  (exists k t,
      oldest_scan (cache this) (None, Infinity) = (Some k, Fin t) /\
      evictOldest this =
      if negb (String.eqb k "")
      then with_cache this (JsMap.delete k (cache this))
      else this).
Proof.
  destruct (cache this) as [|p c] eqn:Hc.
  - left. split; auto. unfold evictOldest. now rewrite Hc.
  - right.
    destruct (@oldest_scan_nonempty (cache this)) as (k & t & Hscan);
      [congruence|].
    exists k, t. rewrite <- Hc. split; auto.
    unfold evictOldest. rewrite Hscan. reflexivity.
Qed.

(** [evictOldest] removes at most the key the scan ends on. *)
Lemma get_evictOldest_other this k t k' :
  oldest_scan (cache this) (None, Infinity) = (Some k, Fin t) ->
  k' <> k ->
  JsMap.get k' (cache (evictOldest this)) = JsMap.get k' (cache this).
Proof.
  intros Hscan Hne. unfold evictOldest. rewrite Hscan. simpl.
  destruct (negb (String.eqb k "")); auto.
  simpl. apply JsMapFacts.get_delete_other. congruence.
Qed.

Lemma wf_evictOldest this :
  JsMap.wf (cache this) -> JsMap.wf (cache (evictOldest this)).
Proof.
  intros Hwf. destruct (evictOldest_cases this) as [[_ ->]|(k & t & _ & ->)]; auto.
  destruct (negb _); auto. now apply JsMapFacts.wf_delete.
Qed.

Lemma wf_cache_set t k v this :
  JsMap.wf (cache this) -> JsMap.wf (cache (set t k v this)).
Proof.
  intros Hwf. unfold set. simpl. apply JsMapFacts.wf_set.
  destruct (_ >=? _); auto using wf_evictOldest.
Qed.

(** When every key is a non-empty string, a full cache loses an entry
    to [evictOldest]. *)
Lemma size_evictOldest this :
  Forall (fun k => k <> "") (JsMap.keys (cache this)) ->
  cache this <> [] ->
  JsMap.size (cache (evictOldest this)) < JsMap.size (cache this).
Proof.
  intros Hkeys Hne.
  destruct (evictOldest_cases this) as [[? _]|(k & t & Hscan & ->)]; [congruence|].
  apply oldest_scan_spec in Hscan as [(e & Hin & _) _].
  assert (Hk : In k (JsMap.keys (cache this))) by (apply (in_map fst) in Hin; auto).
  rewrite Forall_forall in Hkeys. specialize (Hkeys k Hk).
  destruct (String.eqb_spec k ""); [congruence|]. simpl.
  unfold JsMap.size. apply JsMapFacts.length_delete_lt in Hk. lia.
Qed.

Lemma keys_evictOldest_incl this :
  incl (JsMap.keys (cache (evictOldest this))) (JsMap.keys (cache this)).
Proof.
  destruct (evictOldest_cases this) as [[_ ->]|(k & t & _ & ->)];
    [apply incl_refl|].
  destruct (negb _); [|apply incl_refl]. simpl.
  rewrite JsMapFacts.keys_delete. intros x Hx. now apply filter_In in Hx.
Qed.

(** The capacity bound, for caches whose keys are non-empty strings. *)
Lemma set_size_bound t k v this :
  0 < maxSize (options this) ->
  Forall (fun k => k <> "") (JsMap.keys (cache this)) ->
  JsMap.size (cache this) <= maxSize (options this) ->
  JsMap.size (cache (set t k v this)) <= maxSize (options this).
Proof.
  intros Hpos Hkeys Hsize. unfold set. simpl.
  pose proof (JsMapFacts.length_set_le
                (cache (if JsMap.size (cache this) >=? maxSize (options this)
                        then evictOldest this else this))
                k {| value := v; timestamp := t |}) as Hle.
  unfold JsMap.size in *.
  destruct (Z.geb_spec (Z.of_nat (List.length (cache this))) (maxSize (options this))).
  - assert (Hne : cache this <> []) by (destruct (cache this); simpl in *; [lia|congruence]).
    pose proof (size_evictOldest this Hkeys Hne). unfold JsMap.size in *. lia.
  - lia.
Qed.
End Evict.

(** ** Histories of a cache *)

Section History.

Implicit Types (this : CacheManager) (k : string) (st : CacheManager * TimerTable).

Lemma shrinks_refl c : shrinks c c.
Proof. split; [apply incl_refl | lia]. Qed.

Lemma shrinks_trans c1 c2 c3 : shrinks c1 c2 -> shrinks c2 c3 -> shrinks c1 c3.
Proof. intros [? ?] [? ?]. split; [eapply incl_tran; eauto | lia]. Qed.

Lemma shrinks_delete c k : shrinks (JsMap.delete k c) c.
Proof.
  split; [|apply JsMapFacts.length_delete_le].
  rewrite JsMapFacts.keys_delete. intros x Hx. now apply filter_In in Hx.
Qed.

Lemma shrinks_get t k this : shrinks (cache (snd (get t k this))) (cache this).
Proof.
  unfold get. destruct (JsMap.get k (cache this)) as [e|]; simpl;
    [|apply shrinks_refl].
  destruct (_ >? _); simpl; [apply shrinks_delete | apply shrinks_refl].
Qed.

Lemma shrinks_cleanup t this : shrinks (cache (cleanup t this)) (cache this).
Proof.
  unfold cleanup, JsMap.forEach. simpl.
  generalize (cache this) at 2 3 as acc. generalize (cache this) as visited.
  induction visited as [|[k e] visited IH]; intros acc; simpl;
    [apply shrinks_refl|].
  eapply shrinks_trans; [apply IH|].
  destruct (_ >? _); [apply shrinks_delete | apply shrinks_refl].
Qed.

Lemma options_get t k this : options (snd (get t k this)) = options this.
Proof.
  unfold get. destruct (JsMap.get k (cache this)); auto.
  now destruct (_ >? _).
Qed.

Lemma bounded_shrinks this this' :
  options this' = options this ->
  shrinks (cache this') (cache this) ->
  bounded this -> bounded this'.
Proof.
  intros Hopt [Hincl Hlen] [Hkeys Hsize]. split.
  - rewrite Forall_forall in *. auto.
  - rewrite Hopt. unfold JsMap.size in *. lia.
Qed.

Lemma bounded_set t k v this :
  0 < maxSize (options this) -> k <> "" ->
  bounded this -> bounded (set t k v this).
Proof.
  intros Hpos Hk [Hkeys Hsize]. split.
  - unfold set. simpl. rewrite JsMapFacts.keys_set.
    assert (Hkeys' : Forall (fun k => k <> "")
              (JsMap.keys (cache (if JsMap.size (cache this) >=? maxSize (options this)
                                  then evictOldest this else this)))).
    { destruct (_ >=? _); auto.
      rewrite Forall_forall in *. intros x Hx.
      apply Hkeys. now apply keys_evictOldest_incl. }
    destruct (JsMap.has _ _); auto.
    apply Forall_app. split; auto.
  - rewrite options_set. now apply set_size_bound.
Qed.

Lemma bounded_event e st :
  0 < maxSize (options (fst st)) ->
  stored_key e <> Some "" ->
  bounded (fst st) ->
  bounded (fst (event e st)) /\
  options (fst (event e st)) = options (fst st).
Proof.
  intros Hpos Hkey Hb.
  destruct e as [t [k v|k|]|t]; unfold event, call; cbn [fst snd stored_key] in *.
  - split; [|apply options_set].
    apply bounded_set; auto. congruence.
  - split; [|apply options_get].
    eapply bounded_shrinks; eauto using options_get, shrinks_get.
  - split; [|reflexivity].
    split; simpl; [constructor|]. unfold JsMap.size; simpl. lia.
  - split; [|reflexivity].
    apply bounded_shrinks with (this := fst st);
      [reflexivity | apply shrinks_cleanup | assumption].
Qed.

(** For a cache whose keys are all non-empty strings the capacity bound
    holds throughout its life. *)
Lemma run_bounded es opts ts :
  0 < maxSize opts ->
  Forall (fun e => stored_key e <> Some "") es ->
  bounded (fst (run es (new_CacheManager opts ts))).
Proof.
  intros Hpos Hes. unfold run.
  assert (Hinit : bounded (fst (new_CacheManager opts ts)) /\
                  options (fst (new_CacheManager opts ts)) = opts).
  { repeat split; simpl; [constructor | unfold JsMap.size; simpl; lia]. }
  revert Hinit. generalize (new_CacheManager opts ts) as st.
  induction Hes as [|e es He Hes IH]; intros st [Hb Hopt]; simpl; auto.
  apply IH.
  destruct (@bounded_event e st) as [Hb' Hopt']; auto; [congruence|].
  split; congruence.
Qed.

(** No event of a history touches the timer table. *)
Lemma timers_event e st : snd (event e st) = snd st.
Proof. destruct e as [t [k v|k|]|t]; reflexivity. Qed.

Lemma timers_run es st : snd (run es st) = snd st.
Proof.
  unfold run. revert st. induction es as [|e es IH]; intros st; simpl; auto.
  now rewrite IH, timers_event.
Qed.
End History.

(** ** Filling a cache past its capacity *)

Section Overflow.

Lemma set_all_app l1 l2 this :
  set_all (l1 ++ l2) this = set_all l2 (set_all l1 this).
Proof. apply fold_left_app. Qed.

Lemma keys_entries l : JsMap.keys (map entry_of l) = map ins_key l.
Proof. unfold JsMap.keys. rewrite map_map. reflexivity. Qed.

(** Below capacity, new keys are appended in order and nothing is
    evicted. *)
Lemma set_all_below l : forall this,
  NoDup (JsMap.keys (cache this) ++ map ins_key l) ->
  JsMap.size (cache this) + Z.of_nat (List.length l) <= maxSize (options this) ->
  set_all l this = with_cache this (cache this ++ map entry_of l).
Proof.
  induction l as [|i l IH]; intros this Hnd Hsize; simpl.
  - rewrite app_nil_r. now destruct this.
  - assert (Hfresh : ~ In (ins_key i) (JsMap.keys (cache this))).
    { apply NoDup_remove_2 in Hnd. intros Hin. apply Hnd.
      apply in_or_app. now left. }
    assert (Hset : set (ins_time i) (ins_key i) (snd i) this =
                   with_cache this (cache this ++ [entry_of i])).
    { unfold set.
      destruct (Z.geb_spec (JsMap.size (cache this)) (maxSize (options this)));
        [simpl in Hsize; lia|].
      now rewrite JsMapFacts.set_fresh. }
    rewrite Hset, IH; simpl.
    + unfold with_cache; simpl. now rewrite <- app_assoc.
    + unfold JsMap.keys in *. rewrite map_app, <- app_assoc. simpl.
      apply NoDup_Add with (a := ins_key i) (l := (map fst (cache this) ++ map ins_key l)%list);
        [apply Add_app|].
      simpl in Hnd. apply NoDup_remove in Hnd. tauto.
    + unfold JsMap.size in *. rewrite length_app. simpl in *. lia.
Qed.

(** The insertion that overflows an insertion-ordered cache evicts its
    first entry, as long as that entry's key is not the empty
    string. *)
Lemma set_all_overflow (first : Insertion) (rest : list Insertion) opts :
  0 < maxSize opts ->
  Z.of_nat (List.length (first :: rest)) = maxSize opts + 1 ->
  NoDup (map ins_key (first :: rest)) ->
  StronglySorted (fun a b => ins_time a < ins_time b) (first :: rest) ->
  ins_key first <> "" ->
  cache (set_all (first :: rest) {| cache := JsMap.empty; options := opts |}) =
  map entry_of rest.
Proof.
  intros Hpos Hlen Hnd Hsorted Hkey.
  destruct (exists_last (l := rest)) as (mid & last & ->).
  { destruct rest; simpl in *; [lia | congruence]. }
  change (first :: (mid ++ [last])%list) with ((first :: mid) ++ [last])%list in *.
  rewrite length_app in Hlen. simpl in Hlen.
  rewrite set_all_app.
  rewrite (@set_all_below (first :: mid) {| cache := JsMap.empty; options := opts |}).
  - unfold set_all, with_cache; cbn [fold_left]. simpl.
    unfold set; simpl.
    destruct (Z.geb_spec (JsMap.size (entry_of first :: map entry_of mid)) (maxSize opts)) as [_|Hlt];
      [|unfold JsMap.size in Hlt; simpl in Hlt; rewrite length_map in Hlt; lia].
    assert (Hevict :
      evictOldest {| cache := entry_of first :: map entry_of mid; options := opts |} =
      {| cache := map entry_of mid; options := opts |}).
    { unfold evictOldest; simpl cache. unfold entry_of at 1.
      rewrite oldest_scan_head.
      - simpl. destruct (String.eqb_spec (ins_key first) ""); [congruence|]. simpl.
        rewrite String.eqb_refl. simpl. unfold with_cache; simpl. f_equal.
        change (filter _ (map entry_of mid)) with (JsMap.delete (ins_key first) (map entry_of mid)).
        apply JsMapFacts.delete_absent. rewrite keys_entries.
        simpl in Hnd. apply NoDup_cons_iff in Hnd as [Hnotin _].
        intros Hin. apply Hnotin. rewrite map_app. apply in_or_app. now left.
      - intros k' e' Hin. apply in_map_iff in Hin as (i & Hi & Hin).
        inversion Hi; subst. simpl.
        apply StronglySorted_inv in Hsorted as [_ Hall].
        rewrite Forall_forall in Hall.
        specialize (Hall i (in_or_app _ _ _ (or_introl Hin))). lia. }
    rewrite Hevict. simpl. rewrite JsMapFacts.set_fresh.
    + now rewrite map_app.
    + rewrite keys_entries. simpl in Hnd.
      apply NoDup_cons_iff in Hnd as [_ Hnd]. rewrite map_app in Hnd.
      apply NoDup_remove_2 in Hnd. now rewrite app_nil_r in Hnd.
  - simpl. rewrite map_app in Hnd. simpl in Hnd.
    apply (NoDup_remove_1 (ins_key first :: map ins_key mid) [] (ins_key last)) in Hnd.
    now rewrite app_nil_r in Hnd.
  - unfold JsMap.size; simpl. lia.
Qed.
End Overflow.

(** ** The cache: capacity, eviction, expiry *)

(** C1.  The capacity bound [|entries| <= maxSize] after every [set] does
    not hold for arbitrary string keys: in a cache of capacity 1 that
    holds the key [""], [evictOldest] finds that key as the oldest, its
    guard [if (oldestKey)] takes the empty string for [null] and deletes
    nothing, and the following [set] of another key leaves two entries.
    (For caches whose keys are all non-empty, [run_bounded] gives the
    bound.) *)
Theorem set_exceeds_maxSize_after_empty_key :
  let this := set 2 "a" (VNum 1) (set 1 "" (VNum 0) cache_of_one) in
  JsMap.keys (cache this) = [""; "a"] /\
  JsMap.size (cache this) = 2 /\
  maxSize (options this) = 1.
Proof. repeat split. Qed.

(** While no entry was as old as [t], the scan holds nothing as old. *)
Lemma oldest_scan_younger (pre : JsMap.t CacheEntry) (t : Z) :
  forall init,
  lt_number t (snd init) = true ->
  (forall p, In p pre -> t < timestamp (snd p)) ->
  lt_number t (snd (oldest_scan pre init)) = true.
Proof.
  induction pre as [|[k e] pre IH]; intros init Hinit Hall; [exact Hinit|].
  rewrite oldest_scan_cons. apply IH.
  - destruct (lt_number (timestamp e) (snd init)); [|exact Hinit].
    simpl. apply Z.ltb_lt. apply (Hall (k, e)). now left.
  - intros p Hp. apply Hall. now right.
Qed.

Lemma oldest_scan_app (c1 c2 : JsMap.t CacheEntry) init :
  oldest_scan (c1 ++ c2) init = oldest_scan c2 (oldest_scan c1 init).
Proof. unfold oldest_scan, JsMap.forEach. apply fold_left_app. Qed.

(** The scan ends on the first of the oldest entries. *)
Lemma oldest_scan_split (pre post : JsMap.t CacheEntry) (ko : string)
  (eo : CacheEntry) :
  (forall p, In p pre -> timestamp eo < timestamp (snd p)) ->
  (forall p, In p post -> timestamp eo <= timestamp (snd p)) ->
  oldest_scan (pre ++ (ko, eo) :: post) (None, Infinity) =
  (Some ko, Fin (timestamp eo)).
Proof.
  intros Hpre Hpost. rewrite oldest_scan_app, oldest_scan_cons.
  rewrite (@oldest_scan_younger pre (timestamp eo) (None, Infinity) eq_refl Hpre).
  apply oldest_scan_keep. intros k' e' Hin. apply (Hpost (k', e') Hin).
Qed.

(** Every map that is not empty has a first oldest entry. *)
Lemma first_oldest_split (c : JsMap.t CacheEntry) :
  c <> [] ->
  exists pre ko eo post,
    c = pre ++ (ko, eo) :: post /\
    (forall p, In p pre -> timestamp eo < timestamp (snd p)) /\
    (forall p, In p post -> timestamp eo <= timestamp (snd p)).
Proof.
  induction c as [|[k e] c IH]; [congruence|]. intros _.
  destruct c as [|q c'].
  - exists [], k, e, []. repeat split; intros p [].
  - destruct IH as (pre & ko & eo & post & Hc & Hpre & Hpost); [discriminate|].
    destruct (Z_le_gt_dec (timestamp e) (timestamp eo)) as [Hle|Hgt].
    + exists [], k, e, (q :: c'). split; [reflexivity|]. split; [intros p []|].
      intros p Hin. rewrite Hc in Hin. apply in_app_or in Hin as [Hin|[<-|Hin]].
      * specialize (Hpre p Hin). lia.
      * simpl. lia.
      * specialize (Hpost p Hin). lia.
    + exists ((k, e) :: pre), ko, eo, post. rewrite Hc. split; [reflexivity|].
      split; [|exact Hpost].
      intros p [<-|Hin]; [simpl; lia | now apply Hpre].
Qed.

Lemma delete_split (V : Type) (pre post : JsMap.t V) (k : string) (v : V) :
  JsMap.wf (pre ++ (k, v) :: post) ->
  JsMap.delete k (pre ++ (k, v) :: post) = pre ++ post.
Proof.
  unfold JsMap.wf, JsMap.keys. rewrite map_app. simpl. intros Hnd.
  pose proof (NoDup_remove_2 _ _ _ Hnd) as Hnotin.
  unfold JsMap.delete. rewrite filter_app. simpl. rewrite String.eqb_refl. simpl.
  f_equal; apply forallb_filter_id; apply forallb_forall; intros [k' v'] Hin;
    simpl; apply negb_true_iff; apply String.eqb_neq; intros ->;
    apply Hnotin; apply in_or_app; [left|right];
    apply (in_map fst) in Hin; exact Hin.
Qed.

(** C2, as stated, fails: in a full cache, [set] of a key that is present
    runs the eviction all the same, and a different key is lost. *)
Lemma set_present_key_can_evict :
  ~ (forall (this : CacheManager) (t : Z) (k k' : string) (v : JsValue),
        JsMap.wf (cache this) ->
        JsMap.has k (cache this) = true ->
        k' <> k ->
        JsMap.has k' (cache this) = true ->
        JsMap.has k' (cache (set t k v this)) = true).
Proof.
  intros H.
  specialize (H (set 2 "b" VNull (set 1 "a" VNull cache_of_two))
                3 "b" "a" (VNum 1)).
  assert (Hwf : JsMap.wf (cache (set 2 "b" VNull (set 1 "a" VNull cache_of_two)))).
  { do 2 apply wf_cache_set. apply JsMapFacts.wf_empty. }
  specialize (H Hwf eq_refl).
  assert (Hne : "a" <> "b") by discriminate.
  specialize (H Hne eq_refl).
  vm_compute in H. discriminate.
Qed.

(** C2, amended.  For a key [k] that is present, [set k v] overwrites
    [k]'s entry.  Below capacity nothing is evicted: the entry is
    overwritten in place and every entry under another key is as
    before.  At capacity the eviction runs although [k] is present: the
    first of the oldest entries is removed, exactly that one, when its
    key is not the empty string, and then [k]'s entry is written, in
    place, or as the newest entry when [k] itself was evicted; every
    entry under a key other than [k] and other than that oldest key is
    as before. *)
Theorem set_present_key_frame (this : CacheManager) (t : Z) (k : string)
  (v : JsValue) (e0 : CacheEntry) :
  JsMap.wf (cache this) ->
  JsMap.get k (cache this) = Some e0 ->
  JsMap.get k (cache (set t k v this)) = Some {| value := v; timestamp := t |} /\
  (JsMap.size (cache this) < maxSize (options this) ->
   cache (set t k v this) =
     JsMap.set k {| value := v; timestamp := t |} (cache this) /\
   forall k', k' <> k ->
     JsMap.get k' (cache (set t k v this)) = JsMap.get k' (cache this)) /\
  (maxSize (options this) <= JsMap.size (cache this) ->
   exists pre ko eo post,
     cache this = pre ++ (ko, eo) :: post /\
     (forall p, In p pre -> timestamp eo < timestamp (snd p)) /\
     (forall p, In p post -> timestamp eo <= timestamp (snd p)) /\
     (ko <> "" ->
      cache (set t k v this) =
        JsMap.set k {| value := v; timestamp := t |} (pre ++ post) /\
      (ko <> k -> JsMap.get ko (cache (set t k v this)) = None)) /\
     (forall k', k' <> k -> k' <> ko ->
        JsMap.get k' (cache (set t k v this)) = JsMap.get k' (cache this))).
Proof.
  intros Hwf Hk. split; [|split].
  - unfold set; simpl. apply JsMapFacts.get_set_same.
  - intros Hsize.
    assert (Hset : cache (set t k v this) =
                   JsMap.set k {| value := v; timestamp := t |} (cache this)).
    { unfold set.
      destruct (Z.geb_spec (JsMap.size (cache this)) (maxSize (options this)));
        [lia | reflexivity]. }
    split; [exact Hset|].
    intros k' Hne. rewrite Hset. apply JsMapFacts.get_set_other. congruence.
  - intros Hsize.
    destruct (@first_oldest_split (cache this))
      as (pre & ko & eo & post & Hc & Hpre & Hpost).
    { intros Hnil. rewrite Hnil in Hk. discriminate. }
    exists pre, ko, eo, post.
    split; [exact Hc|]. split; [exact Hpre|]. split; [exact Hpost|].
    assert (Hscan : oldest_scan (cache this) (None, Infinity) =
                    (Some ko, Fin (timestamp eo)))
      by (rewrite Hc; now apply oldest_scan_split).
    assert (Hset : cache (set t k v this) =
                   JsMap.set k {| value := v; timestamp := t |}
                     (cache (evictOldest this))).
    { unfold set.
      destruct (Z.geb_spec (JsMap.size (cache this)) (maxSize (options this)));
        [reflexivity | lia]. }
    split.
    + intros Hko.
      assert (Hevict : cache (evictOldest this) = pre ++ post).
      { unfold evictOldest. rewrite Hscan. simpl.
        destruct (String.eqb_spec ko ""); [congruence|]. simpl.
        rewrite Hc. apply delete_split. now rewrite <- Hc. }
      rewrite Hset, Hevict. split; [reflexivity|].
      intros Hne. rewrite JsMapFacts.get_set_other by congruence.
      rewrite <- (@delete_split _ pre post ko eo) by (now rewrite <- Hc).
      apply JsMapFacts.get_delete_same.
    + intros k' Hne Hne'. rewrite Hset.
      rewrite JsMapFacts.get_set_other by congruence.
      now apply (get_evictOldest_other this Hscan).
Qed.

(** At capacity: the cache holds a (time 1) and b (time 2), and b is
    overwritten at time 3; a is evicted. *)
Lemma set_present_key_frame_witness :
  let this := set 2 "b" VNull (set 1 "a" VNull cache_of_two) in
  JsMap.get "b" (cache (set 3 "b" (VNum 1) this)) =
    Some {| value := VNum 1; timestamp := 3 |} /\
  cache (set 3 "b" (VNum 1) this) =
    JsMap.set "b" {| value := VNum 1; timestamp := 3 |}
      [("b", {| value := VNull; timestamp := 2 |})] /\
  JsMap.get "a" (cache (set 3 "b" (VNum 1) this)) = None.
Proof.
  intros this.
  assert (Hwf : JsMap.wf (cache this)).
  { change (NoDup ["a"; "b"]).
    apply NoDup_cons; [intros [H|[]]; discriminate H|].
    apply NoDup_cons; [intros []|apply NoDup_nil]. }
  destruct (@set_present_key_frame this 3 "b" (VNum 1)
              {| value := VNull; timestamp := 2 |} Hwf eq_refl)
    as (Hk & _ & Hfull).
  split; [exact Hk|].
  assert (Hsize : maxSize (options this) <= JsMap.size (cache this))
    by (change (2 <= 2); lia).
  destruct (Hfull Hsize) as (pre & ko & eo & post & Hc & Hpre & Hpost & Hevict & _).
  change (cache this) with [("a", {| value := VNull; timestamp := 1 |});
                            ("b", {| value := VNull; timestamp := 2 |})] in Hc.
  destruct pre as [|p pre].
  - simpl in Hc. inversion Hc; subst ko eo post.
    destruct Hevict as [Hset Hgone]; [discriminate|].
    split; [exact Hset | apply Hgone; discriminate].
  - exfalso. simpl in Hc. inversion Hc as [[Hp Hrest]]. subst p.
    destruct pre as [|p' pre].
    + simpl in Hrest. inversion Hrest; subst ko eo post.
      specialize (Hpre _ (or_introl eq_refl)). simpl in Hpre. lia.
    + simpl in Hrest. inversion Hrest as [[Hp' Hnil]].
      destruct pre; discriminate Hnil.
Defined.

(** C6.  [get] of an expired entry ([now - insertedAt > maxAge]) returns
    [null] and deletes the entry, so that whenever [get] is called next
    on that key it returns [null] again, with no sweep in between; [get]
    of an entry with [now - insertedAt <= maxAge], equality included,
    returns the stored value. *)
Theorem get_expiry (this : CacheManager) (k : string) (e : CacheEntry) :
  JsMap.get k (cache this) = Some e ->
  (forall t, t - timestamp e > maxAge (options this) ->
     fst (get t k this) = VNull /\
     JsMap.get k (cache (snd (get t k this))) = None /\
     forall t', get t' k (snd (get t k this)) = (VNull, snd (get t k this))) /\
  (forall t, t - timestamp e <= maxAge (options this) ->
     fst (get t k this) = value e).
Proof.
  intros Hk. split; intros t Ht.
  - assert (Hget : get t k this =
                   (VNull, with_cache this (JsMap.delete k (cache this)))).
    { unfold get. rewrite Hk.
      destruct (Z.gtb_spec (t - timestamp e) (maxAge (options this))); [reflexivity | lia]. }
    rewrite Hget; simpl. repeat split.
    + apply JsMapFacts.get_delete_same.
    + intros t'. unfold get; simpl. now rewrite JsMapFacts.get_delete_same.
  - unfold get. rewrite Hk.
    destruct (Z.gtb_spec (t - timestamp e) (maxAge (options this))); [lia | reflexivity].
Qed.

Lemma get_expiry_witness :
  let this := set 1 "a" (VNum 7) cache_of_one in
  (fst (get 300002 "a" this) = VNull /\
   JsMap.get "a" (cache (snd (get 300002 "a" this))) = None /\
   get 300003 "a" (snd (get 300002 "a" this)) = (VNull, snd (get 300002 "a" this))) /\
  fst (get 300001 "a" this) = VNum 7.
Proof.
  destruct (@get_expiry (set 1 "a" (VNum 7) cache_of_one) "a"
              {| value := VNum 7; timestamp := 1 |} eq_refl) as [Hexp Hfresh].
  split.
  - assert (Hold : 300002 - 1 > 300000) by lia.
    destruct (Hexp 300002 Hold) as (H1 & H2 & H3).
    split; [exact H1 | split; [exact H2 | exact (H3 300003)]].
  - apply (Hfresh 300001). simpl; lia.
Defined.

(** C7.  Inserting [N+1] distinct keys at increasing times into a cache
    with [maxSize = N] does not always leave [N] entries with the first
    key missing: when the first key is [""], the eviction deletes
    nothing (the guard [if (oldestKey)] of [evictOldest] again) and all
    [N+1] entries stay.  Here [N = 2].  (When the first key is not the
    empty string, [set_all_overflow] gives the claim.) *)
Theorem overflow_keeps_empty_first_key :
  let this :=
    set_all [(1, "", VNum 0); (2, "a", VNum 1); (3, "b", VNum 2)] cache_of_two in
  JsMap.keys (cache this) = [""; "a"; "b"] /\
  JsMap.size (cache this) = 3 /\
  maxSize (options this) = 2.
Proof. repeat split. Qed.

(** C8.  The cleanup timer that the constructor registers is never
    released: the class keeps no handle of it and none of its methods
    reaches the timer table, so after any history of calls and sweeps
    the table is the one the constructor left, the cleanup timer
    included.  There is no stop or disconnect operation. *)
Theorem cleanup_timer_never_cleared (opts : CacheOptions) (ts : TimerTable)
  (es : list CacheEvent) :
  snd (run es (new_CacheManager opts ts)) = snd (new_CacheManager opts ts) /\
  In {| handle := fresh_handle ts; delay := maxAge opts |}
     (snd (run es (new_CacheManager opts ts))).
Proof.
  rewrite timers_run. split; [reflexivity|].
  simpl. unfold setupCleanupInterval, setInterval; simpl.
  apply in_or_app. right. now left.
Qed.

(** C10.  [get] of an entry that is present and not expired returns the
    stored value and leaves the cache as it was: the entry keeps its
    timestamp, and the eviction that follows, alone or within a [set],
    chooses as if the entry had not been read. *)
Theorem get_fresh_is_pure (this : CacheManager) (k : string) (e : CacheEntry)
  (t : Z) :
  JsMap.get k (cache this) = Some e ->
  t - timestamp e <= maxAge (options this) ->
  get t k this = (value e, this) /\
  JsMap.get k (cache (snd (get t k this))) = Some e /\
  evictOldest (snd (get t k this)) = evictOldest this /\
  (forall t' k' v', set t' k' v' (snd (get t k this)) = set t' k' v' this).
Proof.
  intros Hk Ht.
  assert (Hget : get t k this = (value e, this)).
  { unfold get. rewrite Hk.
    destruct (Z.gtb_spec (t - timestamp e) (maxAge (options this))); [lia | reflexivity]. }
  rewrite Hget. simpl. auto.
Qed.

Lemma get_fresh_is_pure_witness :
  let this := set 2 "b" VNull (set 1 "a" (VNum 7) cache_of_two) in
  get 3 "a" this = (VNum 7, this) /\
  JsMap.keys (cache (set 4 "c" VNull (snd (get 3 "a" this)))) = ["b"; "c"].
Proof.
  destruct (@get_fresh_is_pure (set 2 "b" VNull (set 1 "a" (VNum 7) cache_of_two))
              "a" {| value := VNum 7; timestamp := 1 |} 3 eq_refl)
    as (Hget & _ & _ & Hset).
  { simpl; lia. }
  split; [exact Hget|].
  rewrite (Hset 4 "c" VNull). reflexivity.
Defined.

(** ** The request loop *)

Lemma fetch_count_app es1 es2 :
  fetch_count (es1 ++ es2) = (fetch_count es1 + fetch_count es2)%nat.
Proof. unfold fetch_count. now rewrite filter_app, length_app. Qed.

Lemma fetch_count_backoff_trace url method attempt remaining :
  fetch_count (backoff_trace (Fetch url method) attempt remaining) = remaining.
Proof.
  revert attempt. induction remaining as [|r IH]; intros attempt; [reflexivity|].
  destruct r as [|r]; [reflexivity|].
  change (fetch_count (backoff_trace (Fetch url method) attempt (S (S r))))
    with (S (fetch_count (backoff_trace (Fetch url method) (attempt + 1) (S r)))).
  now rewrite IH.
Qed.

Lemma fetch_count_add_effects w es :
  fetch_count (effects (add_effects w es)) =
  (fetch_count (effects w) + fetch_count es)%nat.
Proof. apply fetch_count_app. Qed.

Lemma add_effects_app w es1 es2 :
  add_effects (add_effects w es1) es2 = add_effects w (es1 ++ es2).
Proof. unfold add_effects; simpl. now rewrite app_assoc. Qed.

Section ClientFacts.

Variable host : Host.
Variable config : ApiConfig.
Variables method endpoint : string.
Variable opts : RequestOptions.

Let url : string := (baseUrl config ++ endpoint)%string.
Let key : string := cacheKey host method endpoint opts.
Let loop : Z -> M JsValue := attempt_loop host config method endpoint opts.

(** The loop, unfolded once. *)
Lemma attempt_loop_eq attempt :
  loop attempt =
  if attempt <? retryAttempts config
  then
    try_catch
      (response <- executeRequest host config method endpoint opts ;;
       (if useCache opts then cacheManager_set host key response else ret tt) ;;;
       ret response)%js
      (fun error =>
         let attempt' := attempt + 1 in
         if attempt' =? retryAttempts config
         then throw error
         else (perform (Sleep (1000 * attempt')) ;;; loop attempt')%js)
  else throw exhausted.
Proof.
  unfold loop. rewrite attempt_loop_equation_1.
  destruct (Z_lt_dec attempt (retryAttempts config)) as [H|H]; simpl;
    destruct (Z.ltb_spec attempt (retryAttempts config)); try lia; reflexivity.
Qed.

Lemma executeRequest_eq w :
  executeRequest host config method endpoint opts w =
  (response_of (fetch host (fetch_count (effects w))),
   add_effects w [Fetch url method]).
Proof. reflexivity. Qed.

(** The condition of the [while] fails: nothing is attempted. *)
Lemma loop_skipped attempt w :
  retryAttempts config <= attempt ->
  loop attempt w = (Throw exhausted, w).
Proof.
  intros H. rewrite attempt_loop_eq.
  destruct (Z.ltb_spec attempt (retryAttempts config)); [lia | reflexivity].
Qed.

(** A failed attempt that is not the last: wait, then go round again. *)
Lemma loop_retry attempt w e :
  attempt < retryAttempts config ->
  attempt + 1 <> retryAttempts config ->
  response_of (fetch host (fetch_count (effects w))) = Throw e ->
  loop attempt w =
  loop (attempt + 1)
    (add_effects w [Fetch url method; Sleep (1000 * (attempt + 1))]).
Proof.
  intros Hlt Hne Hfail. rewrite attempt_loop_eq.
  destruct (Z.ltb_spec attempt (retryAttempts config)); [|lia].
  unfold try_catch, bind. rewrite executeRequest_eq, Hfail. cbv zeta.
  destruct (Z.eqb_spec (attempt + 1) (retryAttempts config)); [lia|].
  unfold bind, perform. fold (add_effects (add_effects w [Fetch url method])
                                [Sleep (1000 * (attempt + 1))]).
  now rewrite add_effects_app.
Qed.

(** A failed last attempt: its error is thrown to the caller. *)
Lemma loop_last attempt w e :
  attempt < retryAttempts config ->
  attempt + 1 = retryAttempts config ->
  response_of (fetch host (fetch_count (effects w))) = Throw e ->
  loop attempt w = (Throw e, add_effects w [Fetch url method]).
Proof.
  intros Hlt Heq Hfail. rewrite attempt_loop_eq.
  destruct (Z.ltb_spec attempt (retryAttempts config)); [|lia].
  unfold try_catch, bind. rewrite executeRequest_eq, Hfail. cbv zeta.
  destruct (Z.eqb_spec (attempt + 1) (retryAttempts config)); [|lia].
  reflexivity.
Qed.

(** A successful attempt: the response is stored if asked for, and
    returned. *)
Lemma loop_success attempt w v :
  attempt < retryAttempts config ->
  response_of (fetch host (fetch_count (effects w))) = Normal v ->
  loop attempt w =
  (Normal v,
   if useCache opts
   then snd (cacheManager_set host key v (add_effects w [Fetch url method]))
   else add_effects w [Fetch url method]).
Proof.
  intros Hlt Hok. rewrite attempt_loop_eq.
  destruct (Z.ltb_spec attempt (retryAttempts config)); [|lia].
  unfold try_catch, bind. rewrite executeRequest_eq, Hok.
  destruct (useCache opts); reflexivity.
Qed.

(** Every attempt fails: the loop makes the attempts that remain, waits
    between them, and throws the error of the last one. *)
Lemma loop_all_fail remaining : forall attempt w,
  Z.of_nat (S remaining) = retryAttempts config - attempt ->
  (forall i, fails (fetch host i)) ->
  exists e,
    response_of (fetch host (fetch_count (effects w) + remaining)) = Throw e /\
    loop attempt w =
    (Throw e, add_effects w (backoff_trace (Fetch url method) attempt (S remaining))).
Proof.
  induction remaining as [|r IH]; intros attempt w Hrem Hfail.
  - destruct (Hfail (fetch_count (effects w))) as [e He].
    exists e. rewrite Nat.add_0_r. split; [exact He|].
    apply loop_last; auto; lia.
  - destruct (Hfail (fetch_count (effects w))) as [e0 He0].
    rewrite (@loop_retry attempt w e0) by (auto; lia).
    destruct (IH (attempt + 1)
                (add_effects w [Fetch url method; Sleep (1000 * (attempt + 1))]))
      as (e & He & Hloop); [lia | auto |].
    exists e. split.
    + rewrite <- He, fetch_count_add_effects.
      change (fetch_count [Fetch url method; Sleep (1000 * (attempt + 1))]) with 1%nat.
      do 2 f_equal. lia.
    + rewrite Hloop, add_effects_app. reflexivity.
Qed.
End ClientFacts.

(** ** [request] *)

Section RequestFacts.

Variable host : Host.
Variable config : ApiConfig.
Variables method endpoint : string.
Variable opts : RequestOptions.

Let url : string := (baseUrl config ++ endpoint)%string.
Let key : string := cacheKey host method endpoint opts.
Let loop : Z -> M JsValue := attempt_loop host config method endpoint opts.

Lemma request_eq w :
  request host config method endpoint opts w =
  if useCache opts
  then if truthy (cached host method endpoint opts w)
       then (Normal (cached host method endpoint opts w), looked_up host key w)
       else loop 0 (looked_up host key w)
  else loop 0 w.
Proof.
  unfold request, cached, looked_up.
  destruct (useCache opts); [|reflexivity].
  unfold bind at 1. unfold cacheManager_get. fold key.
  destruct (JsMap.get key (cache (cacheManager w))) as [e|] eqn:Hentry.
  - unfold bind, read_clock. simpl.
    destruct (get (Date_now host (ticks w)) key (cacheManager w)) as [v cm].
    simpl. destruct (truthy v); reflexivity.
  - unfold get. rewrite Hentry. reflexivity.
Qed.

(** A miss leaves the request to the loop, in a world with the same
    effects so far. *)
Lemma request_miss w :
  cache_hit host method endpoint opts w = false ->
  exists w',
    request host config method endpoint opts w = loop 0 w' /\
    effects w' = effects w /\
    (w' = w \/ w' = looked_up host key w).
Proof.
  unfold cache_hit. intros Hmiss. rewrite request_eq.
  destruct (useCache opts); simpl in Hmiss.
  - rewrite Hmiss. exists (looked_up host key w). repeat split; auto.
    unfold looked_up. now destruct (JsMap.get key (cache (cacheManager w))).
  - exists w. auto.
Qed.

(** A hit on a truthy value: the value is returned and nothing is
    attempted. *)
Lemma request_hit w :
  cache_hit host method endpoint opts w = true ->
  request host config method endpoint opts w =
  (Normal (cached host method endpoint opts w), looked_up host key w).
Proof.
  unfold cache_hit. intros Hhit. apply andb_prop in Hhit as [Huse Htruthy].
  now rewrite request_eq, Huse, Htruthy.
Qed.

Lemma get_empty t k this :
  cache this = [] -> get t k this = (VNull, this).
Proof. intros H. unfold get. now rewrite H. Qed.

Lemma cache_hit_empty w :
  cache (cacheManager w) = [] -> cache_hit host method endpoint opts w = false.
Proof.
  intros H. unfold cache_hit, cached. rewrite get_empty by assumption.
  apply andb_false_r.
Qed.

(** With every attempt failing, a request that misses the cache makes
    [retryAttempts] attempts and rejects with the error of the last. *)
Lemma request_all_fail r w :
  retryAttempts config = Z.of_nat (S r) ->
  (forall i, fails (fetch host i)) ->
  cache_hit host method endpoint opts w = false ->
  exists e w',
    response_of (fetch host (fetch_count (effects w) + r)) = Throw e /\
    effects w' = effects w /\
    (w' = w \/ w' = looked_up host key w) /\
    request host config method endpoint opts w =
    (Throw e, add_effects w' (backoff_trace (Fetch url method) 0 (S r))).
Proof.
  intros HR Hfail Hmiss.
  destruct (request_miss w Hmiss) as (w' & Hreq & Heff & Hw').
  destruct (@loop_all_fail host config method endpoint opts r 0 w')
    as (e & He & Hloop); [lia | assumption |].
  exists e, w'. rewrite Heff in He. repeat split; auto.
  rewrite Hreq. exact Hloop.
Qed.
End RequestFacts.

(** While every attempt fails, the cache of a client stays empty. *)
Lemma reachable_all_fail_empty host config r w :
  retryAttempts config = Z.of_nat (S r) ->
  (forall i, fails (fetch host i)) ->
  reachable host config w ->
  cache (cacheManager w) = [].
Proof.
  intros HR Hfail Hreach.
  induction Hreach as [ts | w method endpoint opts Hreach IH | w t Hreach IH].
  - reflexivity.
  - destruct (@request_all_fail host config method endpoint opts r w HR Hfail)
      as (e & w' & _ & _ & Hw' & ->).
    { now apply cache_hit_empty. }
    simpl. destruct Hw' as [->| ->]; [assumption|].
    unfold looked_up. now rewrite IH.
  - simpl. unfold JsMap.forEach. now rewrite IH.
Qed.

(** ** The client: cache hits, retries, exhaustion *)

(** C3.  A cached value that is falsy does not short-circuit the
    request.  The first request stores the response 0 under its key; at
    the second, identical request the entry is there and not expired and
    [cacheManager.get] returns 0, but [if (cached)] takes 0 for a miss
    and the transport is invoked again.  (For truthy values
    [request_hit] gives the short-circuit.) *)
Theorem request_refetches_cached_zero :
  let w :=
    snd (request count_host (demo_config 3) "GET" "/count" cached_request
           (new_ApiClient [])) in
  JsMap.get "GET:/count:undefined" (cache (cacheManager w)) =
    Some {| value := VNum 0; timestamp := 0 |} /\
  get (Date_now count_host (ticks w)) "GET:/count:undefined" (cacheManager w) =
    (VNum 0, cacheManager w) /\
  effects w = [Fetch "https://api.example.com/count" "GET"] /\
  request count_host (demo_config 3) "GET" "/count" cached_request w =
    (Normal (VNum 0),
     {| cacheManager :=
          with_cache (cacheManager w)
            [("GET:/count:undefined", {| value := VNum 0; timestamp := 2 |})];
        timers := timers w;
        effects := [Fetch "https://api.example.com/count" "GET";
                    Fetch "https://api.example.com/count" "GET"];
        ticks := 3 |}).
Proof. vm_compute. repeat split. Qed.

(** C4.  With [retryAttempts = 3] and a transport that fails at its first
    two invocations and succeeds at the third, a request on a new client
    resolves with the value of the third; the transport is invoked
    exactly three times, with a wait of 1000 ms after the first failure
    and of 2000 ms after the second. *)
Theorem request_succeeds_at_third_attempt (host : Host) (config : ApiConfig)
  (method endpoint : string) (opts : RequestOptions) (ts : TimerTable)
  (v : JsValue) :
  retryAttempts config = 3 ->
  fails (fetch host 0) ->
  fails (fetch host 1) ->
  response_of (fetch host 2) = Normal v ->
  let url := (baseUrl config ++ endpoint)%string in
  let r := request host config method endpoint opts (new_ApiClient ts) in
  fst r = Normal v /\
  effects (snd r) =
    [Fetch url method; Sleep 1000; Fetch url method; Sleep 2000; Fetch url method] /\
  fetch_count (effects (snd r)) = 3%nat.
Proof.
  intros HR [e0 H0] [e1 H1] H2 url r.
  assert (Hr : fst r = Normal v /\
               effects (snd r) =
               [Fetch url method; Sleep 1000; Fetch url method; Sleep 2000;
                Fetch url method]).
  { subst r.
    destruct (@request_miss host config method endpoint opts (new_ApiClient ts))
      as (w' & -> & Heff & _).
    { now apply cache_hit_empty. }
    change (effects (new_ApiClient ts)) with (@nil Effect) in Heff.
    rewrite (@loop_retry host config method endpoint opts 0 w' e0);
      [| lia | lia | now rewrite Heff].
    rewrite (@loop_retry host config method endpoint opts (0 + 1) _ e1);
      [| lia | lia | now rewrite fetch_count_add_effects, Heff].
    rewrite (@loop_success host config method endpoint opts (0 + 1 + 1) _ v);
      [| lia | now rewrite !fetch_count_add_effects, Heff].
    split; [reflexivity|].
    destruct (useCache opts); simpl; rewrite Heff; reflexivity. }
  destruct Hr as [Hres Heff]. repeat split; auto.
  rewrite Heff. reflexivity.
Qed.

Lemma request_succeeds_at_third_attempt_witness :
  let r := request flaky_host (demo_config 3) "GET" "/users" cached_request
             (new_ApiClient []) in
  fst r = Normal (VStr "ok") /\
  effects (snd r) =
    [Fetch "https://api.example.com/users" "GET"; Sleep 1000;
     Fetch "https://api.example.com/users" "GET"; Sleep 2000;
     Fetch "https://api.example.com/users" "GET"] /\
  fetch_count (effects (snd r)) = 3%nat.
Proof.
  apply (@request_succeeds_at_third_attempt flaky_host (demo_config 3)
           "GET" "/users" cached_request [] (VStr "ok")).
  - reflexivity.
  - exists (Error "Failed to fetch"). reflexivity.
  - exists (Error "Failed to fetch"). reflexivity.
  - reflexivity.
Defined.

(** C5.  With [retryAttempts = n >= 1] and a transport that fails at
    every invocation, every request of a client invokes the transport
    exactly [n] times and then rejects with the error of the last
    invocation: the exhaustion reaches the caller. *)
Theorem request_exhausts_attempts (host : Host) (config : ApiConfig) (n : Z)
  (w : World) (method endpoint : string) (opts : RequestOptions) :
  1 <= n ->
  retryAttempts config = n ->
  (forall i, fails (fetch host i)) ->
  reachable host config w ->
  let r := request host config method endpoint opts w in
  exists e,
    response_of (fetch host (fetch_count (effects w) + Z.to_nat n - 1)) = Throw e /\
    fst r = Throw e /\
    effects (snd r) =
      effects w ++
      backoff_trace (Fetch (baseUrl config ++ endpoint)%string method) 0 (Z.to_nat n) /\
    fetch_count (effects (snd r)) = (fetch_count (effects w) + Z.to_nat n)%nat.
Proof.
  intros Hn HR Hfail Hreach r.
  assert (HR' : retryAttempts config = Z.of_nat (S (Z.to_nat n - 1))) by lia.
  pose proof (reachable_all_fail_empty HR' Hfail Hreach) as Hempty.
  destruct (@request_all_fail host config method endpoint opts _ w HR' Hfail)
    as (e & w' & He & Heff & _ & Hreq).
  { now apply cache_hit_empty. }
  replace (S (Z.to_nat n - 1)) with (Z.to_nat n) in Hreq by lia.
  exists e. subst r. rewrite Hreq. simpl fst. simpl snd.
  split; [|split; [reflexivity|split]].
  - rewrite <- He. do 2 f_equal. lia.
  - unfold add_effects; simpl. now rewrite Heff.
  - rewrite fetch_count_add_effects, Heff, fetch_count_backoff_trace. reflexivity.
Qed.

Lemma request_exhausts_attempts_witness :
  let r := request dead_host (demo_config 2) "GET" "/users" plain_request
             (new_ApiClient []) in
  exists e,
    response_of (fetch dead_host 1) = Throw e /\
    fst r = Throw e /\
    effects (snd r) =
      [Fetch "https://api.example.com/users" "GET"; Sleep 1000;
       Fetch "https://api.example.com/users" "GET"] /\
    fetch_count (effects (snd r)) = 2%nat.
Proof.
  assert (Hn : 1 <= 2) by lia.
  assert (Hfail : forall i, fails (fetch dead_host i)).
  { intros i. exists (Error "HTTP error! status: 503"). reflexivity. }
  exact (@request_exhausts_attempts dead_host (demo_config 2) 2
           (new_ApiClient []) "GET" "/users" plain_request
           Hn eq_refl Hfail (reach_new dead_host (demo_config 2) [])).
Defined.

(** C9.  With [retryAttempts <= 0], a request that does not hit the
    cache never enters the loop: the transport is not invoked, there is
    no wait, and the request rejects with the error 'Request failed
    after all retry attempts'. *)
Theorem request_without_attempts (host : Host) (config : ApiConfig)
  (method endpoint : string) (opts : RequestOptions) (w : World) :
  retryAttempts config <= 0 ->
  cache_hit host method endpoint opts w = false ->
  let r := request host config method endpoint opts w in
  fst r = Throw (Error "Request failed after all retry attempts") /\
  effects (snd r) = effects w.
Proof.
  intros HR Hmiss r. subst r.
  destruct (@request_miss host config method endpoint opts w Hmiss)
    as (w' & -> & Heff & _).
  rewrite loop_skipped by lia. simpl. auto.
Qed.

Lemma request_without_attempts_witness :
  let r := request count_host (demo_config 0) "GET" "/count" cached_request
             (new_ApiClient []) in
  fst r = Throw (Error "Request failed after all retry attempts") /\
  effects (snd r) = [].
Proof.
  assert (HR : retryAttempts (demo_config 0) <= 0) by (simpl; lia).
  exact (@request_without_attempts count_host (demo_config 0) "GET" "/count"
           cached_request (new_ApiClient []) HR eq_refl).
Defined.

(** * Further properties of the cache *)

Lemma options_event e st : options (fst (event e st)) = options (fst st).
Proof.
  destruct e as [t [k v|k|]|t]; unfold event, call; cbn [fst snd].
  - apply options_set.
  - apply options_get.
  - reflexivity.
  - reflexivity.
Qed.

Lemma options_run es : forall st, options (fst (run es st)) = options (fst st).
Proof.
  unfold run. induction es as [|e es IH]; intros st; simpl; [reflexivity|].
  now rewrite IH, options_event.
Qed.

(** X1.  A value that was just stored is read back: [get] of a key,
    called no later than [maxAge] after the [set] of that key, returns
    the value stored and changes nothing, whatever the cache held before
    and whether or not the [set] evicted. *)
Theorem get_after_set (this : CacheManager) (t t' : Z) (k : string)
  (v : JsValue) :
  t' - t <= maxAge (options this) ->
  get t' k (set t k v this) = (v, set t k v this).
Proof.
  intros Hfresh. unfold get.
  replace (JsMap.get k (cache (set t k v this)))
    with (Some {| value := v; timestamp := t |})
    by (unfold set; simpl; now rewrite JsMapFacts.get_set_same).
  rewrite options_set. simpl.
  destruct (Z.gtb_spec (t' - t) (maxAge (options this))); [lia | reflexivity].
Qed.

Lemma get_after_set_witness :
  get 300005 "b" (set 5 "b" (VStr "x") (set 1 "a" VNull cache_of_one)) =
  (VStr "x", set 5 "b" (VStr "x") (set 1 "a" VNull cache_of_one)).
Proof.
  apply (@get_after_set (set 1 "a" VNull cache_of_one) 5 300005 "b" (VStr "x")).
  simpl. lia.
Defined.

(** X2.  In a cache constructed with [maxSize > 0] and never asked to
    store under the empty string, the number of entries is at most
    [maxSize] after every call and every sweep. *)
Theorem capacity_bound_without_empty_key (es : list CacheEvent)
  (opts : CacheOptions) (ts : TimerTable) :
  0 < maxSize opts ->
  Forall (fun e => stored_key e <> Some "") es ->
  JsMap.size (cache (fst (run es (new_CacheManager opts ts)))) <= maxSize opts.
Proof.
  intros Hpos Hes.
  destruct (@run_bounded es opts ts Hpos Hes) as [_ Hsize].
  now rewrite options_run in Hsize.
Qed.

Lemma capacity_bound_without_empty_key_witness :
  JsMap.size
    (cache (fst (run [Call 1 (CallSet "a" VNull); Call 2 (CallSet "b" VNull);
                      Call 3 (CallGet "a"); Sweep 4; Call 5 (CallSet "c" VNull)]
                   (new_CacheManager {| maxAge := 300000; maxSize := 2 |} []))))
  <= 2.
Proof.
  apply (@capacity_bound_without_empty_key
           [Call 1 (CallSet "a" VNull); Call 2 (CallSet "b" VNull);
            Call 3 (CallGet "a"); Sweep 4; Call 5 (CallSet "c" VNull)]
           {| maxAge := 300000; maxSize := 2 |} []).
  - simpl. lia.
  - repeat constructor; simpl; discriminate.
Defined.

(** X3.  Filling a new cache of capacity [N > 0] with [N+1] distinct keys
    at strictly increasing times, the first key not being the empty
    string, leaves exactly [N] entries: the first key is gone and every
    later insertion is still there with its value and time. *)
Theorem overflow_evicts_first_inserted (first : Insertion)
  (rest : list Insertion) (opts : CacheOptions) :
  0 < maxSize opts ->
  Z.of_nat (List.length (first :: rest)) = maxSize opts + 1 ->
  NoDup (map ins_key (first :: rest)) ->
  StronglySorted (fun a b => ins_time a < ins_time b) (first :: rest) ->
  ins_key first <> "" ->
  let c := cache (set_all (first :: rest)
                    {| cache := JsMap.empty; options := opts |}) in
  JsMap.size c = maxSize opts /\
  JsMap.get (ins_key first) c = None /\
  (forall i, In i rest ->
     JsMap.get (ins_key i) c =
     Some {| value := snd i; timestamp := ins_time i |}).
Proof.
  intros Hpos Hlen Hnd Hsorted Hkey c.
  assert (Hc : c = map entry_of rest) by (now apply set_all_overflow).
  rewrite Hc. simpl in Hlen, Hnd. apply NoDup_cons_iff in Hnd as [Hfirst Hnd].
  split; [|split].
  - unfold JsMap.size. rewrite length_map. lia.
  - apply JsMapFacts.get_None_keys. now rewrite keys_entries.
  - intros i Hi. apply JsMapFacts.In_get.
    + unfold JsMap.wf. now rewrite keys_entries.
    + apply (in_map entry_of) in Hi. exact Hi.
Qed.

Lemma overflow_evicts_first_inserted_witness :
  let c := cache (set_all [(1, "a", VNum 1); (2, "b", VNum 2); (3, "c", VNum 3)]
                    {| cache := JsMap.empty;
                       options := {| maxAge := 300000; maxSize := 2 |} |}) in
  JsMap.size c = 2 /\
  JsMap.get "a" c = None /\
  (forall i, In i [(2, "b", VNum 2); (3, "c", VNum 3)] ->
     JsMap.get (ins_key i) c =
     Some {| value := snd i; timestamp := ins_time i |}).
Proof.
  apply (@overflow_evicts_first_inserted (1, "a", VNum 1)
           [(2, "b", VNum 2); (3, "c", VNum 3)]
           {| maxAge := 300000; maxSize := 2 |}).
  - simpl. lia.
  - reflexivity.
  - simpl. repeat constructor; simpl; intuition discriminate.
  - repeat constructor; unfold ins_time; simpl; lia.
  - discriminate.
Defined.

Lemma filter_twice (A : Type) (f g : A -> bool) (l : list A) :
  filter f (filter g l) = filter (fun x => g x && f x) l.
Proof.
  induction l as [|x l IH]; simpl; [reflexivity|].
  destruct (g x); simpl; [destruct (f x)|]; now rewrite IH.
Qed.

(** The sweep, one visited entry after another: an entry of the map is
    deleted when an expired entry with its key is visited. *)
Lemma cleanup_fold opts now (visited : JsMap.t CacheEntry) :
  forall acc : JsMap.t CacheEntry,
  JsMap.forEach
    (fun (m : JsMap.t CacheEntry) entry key =>
       if now - timestamp entry >? maxAge opts then JsMap.delete key m else m)
    visited acc =
  filter
    (fun p => negb (existsb (fun q => String.eqb (fst q) (fst p) && expired opts now (snd q))
                      visited))
    acc.
Proof.
  unfold JsMap.forEach.
  induction visited as [|[k e] visited IH]; intros acc; simpl.
  - symmetry. apply forallb_filter_id. now apply forallb_forall.
  - rewrite IH. unfold expired at 2.
    destruct (now - timestamp e >? maxAge opts); simpl.
    + unfold JsMap.delete. rewrite filter_twice.
      apply filter_ext. intros [k' e']; simpl.
      destruct (String.eqb k k'); reflexivity.
    + apply filter_ext. intros [k' e']; simpl. now rewrite andb_false_r.
Qed.

(** X4.  A sweep at clock reading [now] deletes exactly the entries with
    [now - timestamp > maxAge]: the other entries stay, in their order,
    with their values and timestamps. *)
Theorem cleanup_deletes_exactly_expired (now : Z) (this : CacheManager) :
  JsMap.wf (cache this) ->
  cache (cleanup now this) =
  filter (fun p => negb (expired (options this) now (snd p))) (cache this).
Proof.
  intros Hwf. unfold cleanup. simpl. rewrite cleanup_fold.
  apply filter_ext_in. intros [k e] Hin. simpl. f_equal.
  destruct (expired (options this) now e) eqn:Hexp.
  - apply existsb_exists. exists (k, e). simpl.
    now rewrite String.eqb_refl, Hexp.
  - apply not_true_is_false. intros Hex.
    apply existsb_exists in Hex as ([k' e'] & Hin' & Hq). simpl in Hq.
    apply andb_prop in Hq as [Hk He'].
    apply String.eqb_eq in Hk. subst k'.
    apply JsMapFacts.In_get in Hin; [|exact Hwf].
    apply JsMapFacts.In_get in Hin'; [|exact Hwf].
    congruence.
Qed.

Lemma cleanup_deletes_exactly_expired_witness :
  let this :=
    set 300000 "c" (VNum 3) (set 2 "b" (VNum 2) (set 1 "a" (VNum 1)
      (fst (new_CacheManager {| maxAge := 300000; maxSize := 5 |} [])))) in
  cache (cleanup 300002 this) =
  filter (fun p => negb (expired (options this) 300002 (snd p))) (cache this).
Proof.
  apply cleanup_deletes_exactly_expired.
  change (NoDup ["a"; "b"; "c"]).
  repeat (apply NoDup_cons; [simpl; intuition discriminate|]).
  apply NoDup_nil.
Defined.

(** X5.  [evictOldest] deletes one entry: the one with the smallest
    timestamp and, among several of that timestamp, the one inserted
    first; the other entries stay in their order.  (The key of that entry
    must not be the empty string.) *)
Theorem evictOldest_deletes_first_oldest (this : CacheManager)
  (pre post : JsMap.t CacheEntry) (k : string) (e : CacheEntry) :
  JsMap.wf (cache this) ->
  cache this = pre ++ (k, e) :: post ->
  (forall p, In p pre -> timestamp e < timestamp (snd p)) ->
  (forall p, In p post -> timestamp e <= timestamp (snd p)) ->
  k <> "" ->
  cache (evictOldest this) = pre ++ post.
Proof.
  intros Hwf Hc Hpre Hpost Hk.
  assert (Hscan : oldest_scan (cache this) (None, Infinity) =
                  (Some k, Fin (timestamp e))).
  { rewrite Hc, oldest_scan_app, oldest_scan_cons.
    rewrite (@oldest_scan_younger pre (timestamp e) (None, Infinity) eq_refl Hpre).
    apply oldest_scan_keep. intros k' e' Hin. apply (Hpost (k', e') Hin). }
  unfold evictOldest. rewrite Hscan. simpl.
  destruct (String.eqb_spec k ""); [congruence|]. simpl.
  unfold JsMap.wf, JsMap.keys in Hwf. rewrite Hc in *.
  rewrite map_app in Hwf. simpl in Hwf.
  pose proof (NoDup_remove_2 _ _ _ Hwf) as Hnotin.
  unfold JsMap.delete. rewrite filter_app. simpl. rewrite String.eqb_refl. simpl.
  f_equal; apply forallb_filter_id; apply forallb_forall; intros [k' e'] Hin;
    simpl; apply negb_true_iff; apply String.eqb_neq; intros ->;
    apply Hnotin; apply in_or_app; [left|right];
    apply (in_map fst) in Hin; exact Hin.
Qed.

Lemma evictOldest_deletes_first_oldest_witness :
  cache (evictOldest
           (set 2 "c" VNull (set 1 "b" VNull (set 1 "a" VNull (set 2 "z" VNull
              (fst (new_CacheManager {| maxAge := 300000; maxSize := 9 |} []))))))) =
  [("z", {| value := VNull; timestamp := 2 |})] ++
  [("b", {| value := VNull; timestamp := 1 |});
   ("c", {| value := VNull; timestamp := 2 |})].
Proof.
  apply (@evictOldest_deletes_first_oldest _
           [("z", {| value := VNull; timestamp := 2 |})]
           [("b", {| value := VNull; timestamp := 1 |});
            ("c", {| value := VNull; timestamp := 2 |})]
           "a" {| value := VNull; timestamp := 1 |}).
  - change (NoDup ["z"; "a"; "b"; "c"]).
    repeat (apply NoDup_cons; [simpl; intuition discriminate|]).
    apply NoDup_nil.
  - reflexivity.
  - intros p [<-|[]]. simpl. lia.
  - intros p [<-|[<-|[]]]; simpl; lia.
  - discriminate.
Defined.

(** X6.  [get] never returns a value it should not: a result other than
    [null] is the value of the entry stored under the key, that entry is
    not expired at the time of the call, and the call changed nothing. *)
Theorem get_returns_only_fresh (this : CacheManager) (t : Z) (k : string)
  (v : JsValue) :
  fst (get t k this) = v ->
  v <> VNull ->
  exists e,
    JsMap.get k (cache this) = Some e /\
    value e = v /\
    t - timestamp e <= maxAge (options this) /\
    snd (get t k this) = this.
Proof.
  unfold get. destruct (JsMap.get k (cache this)) as [e|]; simpl.
  - destruct (Z.gtb_spec (t - timestamp e) (maxAge (options this))); simpl.
    + congruence.
    + intros Hv _. exists e. split; [reflexivity|]. split; [exact Hv|].
      split; [lia | reflexivity].
  - congruence.
Qed.

Lemma get_returns_only_fresh_witness :
  exists e,
    JsMap.get "a" (cache (set 1 "a" (VNum 7) cache_of_one)) = Some e /\
    value e = VNum 7 /\
    9 - timestamp e <= 300000 /\
    snd (get 9 "a" (set 1 "a" (VNum 7) cache_of_one)) =
    set 1 "a" (VNum 7) cache_of_one.
Proof.
  apply (@get_returns_only_fresh (set 1 "a" (VNum 7) cache_of_one) 9 "a" (VNum 7)).
  - reflexivity.
  - discriminate.
Defined.

(** * Further properties of the client *)

Lemma get_fresh_is_pure_aux (this : CacheManager) (k : string) (e : CacheEntry)
  (t : Z) :
  JsMap.get k (cache this) = Some e ->
  t - timestamp e <= maxAge (options this) ->
  get t k this = (value e, this).
Proof.
  intros Hk Ht. unfold get. rewrite Hk.
  destruct (Z.gtb_spec (t - timestamp e) (maxAge (options this))); [lia | reflexivity].
Qed.

Section LoopFacts.
Variable host : Host.
Variable config : ApiConfig.
Variables method endpoint : string.
Variable opts : RequestOptions.

Let url : string := (baseUrl config ++ endpoint)%string.
Let key : string := cacheKey host method endpoint opts.
Let loop : Z -> M JsValue := attempt_loop host config method endpoint opts.

Lemma fetch_count_retry_prefix attempt k :
  fetch_count (retry_prefix (Fetch url method) attempt k) = k.
Proof.
  revert attempt. induction k as [|k IH]; intros attempt; [reflexivity|].
  change (fetch_count (retry_prefix (Fetch url method) attempt (S k)))
    with (S (fetch_count (retry_prefix (Fetch url method) (attempt + 1) k))).
  now rewrite IH.
Qed.

(** [k] failures, each with an attempt left after it, then a success. *)
Lemma loop_fail_then_success (v : JsValue) (k : nat) : forall attempt w,
  attempt + Z.of_nat k < retryAttempts config ->
  (forall i, (i < k)%nat -> fails (fetch host (fetch_count (effects w) + i))) ->
  response_of (fetch host (fetch_count (effects w) + k)) = Normal v ->
  loop attempt w =
  (Normal v,
   let w' := add_effects w (retry_prefix (Fetch url method) attempt k
                              ++ [Fetch url method]) in
   if useCache opts then snd (cacheManager_set host key v w') else w').
Proof.
  induction k as [|k IH]; intros attempt w Hlt Hfail Hok.
  - rewrite Nat.add_0_r in Hok.
    unfold loop. rewrite (@loop_success host config method endpoint opts attempt w v);
      [| lia | exact Hok].
    reflexivity.
  - destruct (Hfail 0%nat) as [e He]; [lia|]. rewrite Nat.add_0_r in He.
    unfold loop.
    rewrite (@loop_retry host config method endpoint opts attempt w e);
      [| lia | lia | exact He].
    fold loop. fold url. rewrite IH.
    + cbv zeta. rewrite add_effects_app. reflexivity.
    + lia.
    + intros i Hi. rewrite fetch_count_add_effects.
      change (fetch_count [Fetch url method; Sleep (1000 * (attempt + 1))]) with 1%nat.
      replace (fetch_count (effects w) + 1 + i)%nat
        with (fetch_count (effects w) + S i)%nat by lia.
      apply Hfail. lia.
    + rewrite fetch_count_add_effects.
      change (fetch_count [Fetch url method; Sleep (1000 * (attempt + 1))]) with 1%nat.
      replace (fetch_count (effects w) + 1 + k)%nat
        with (fetch_count (effects w) + S k)%nat by lia.
      exact Hok.
Qed.

(** What the loop does whatever the transport answers: it only adds
    effects, at most one fetch per attempt left, and every wait is a
    backoff wait; without [useCache] it leaves the cache and the clock
    alone. *)
Lemma loop_effects (m : nat) : forall attempt w,
  0 <= attempt ->
  Z.to_nat (retryAttempts config - attempt) = m ->
  exists es,
    effects (snd (loop attempt w)) = effects w ++ es /\
    (fetch_count es <= m)%nat /\
    Forall (backoff_wait (retryAttempts config)) es /\
    (useCache opts = false ->
     cacheManager (snd (loop attempt w)) = cacheManager w /\
     ticks (snd (loop attempt w)) = ticks w /\
     timers (snd (loop attempt w)) = timers w).
Proof.
  induction m as [|m IH]; intros attempt w Hpos Hm.
  - unfold loop. rewrite loop_skipped by lia. exists []. simpl.
    rewrite app_nil_r. repeat split; auto.
  - assert (Hlt : attempt < retryAttempts config) by lia.
    destruct (response_of (fetch host (fetch_count (effects w)))) as [v|e] eqn:Hres.
    + unfold loop. rewrite (@loop_success host config method endpoint opts attempt w v Hlt Hres).
      exists [Fetch url method]. simpl snd.
      split; [destruct (useCache opts); reflexivity|].
      split; [change (fetch_count [Fetch url method]) with 1%nat; lia|].
      split; [repeat constructor|].
      intros ->. repeat split.
    + destruct (Z.eq_dec (attempt + 1) (retryAttempts config)) as [Heq|Hne].
      * unfold loop. rewrite (@loop_last host config method endpoint opts attempt w e Hlt Heq Hres).
        exists [Fetch url method]. simpl snd.
        split; [reflexivity|]. split; [change (fetch_count [Fetch url method]) with 1%nat; lia|].
        split; [repeat constructor|]. intros _. repeat split.
      * unfold loop.
        rewrite (@loop_retry host config method endpoint opts attempt w e Hlt Hne Hres).
        fold loop. fold url.
        destruct (IH (attempt + 1)
                    (add_effects w [Fetch url method; Sleep (1000 * (attempt + 1))]))
          as (es & Heff & Hcount & Hwaits & Hcache); [lia | lia |].
        exists ([Fetch url method; Sleep (1000 * (attempt + 1))] ++ es).
        split; [rewrite Heff; simpl effects; now rewrite <- app_assoc|].
        split.
        { rewrite fetch_count_app.
          change (fetch_count [Fetch url method; Sleep (1000 * (attempt + 1))]) with 1%nat.
          lia. }
        split.
        { apply Forall_app. split; [|exact Hwaits].
          constructor; [exact I|]. constructor; [|constructor].
          exists (attempt + 1). split; [lia | reflexivity]. }
        intros Huse. destruct (Hcache Huse) as (Hc & Ht & Hti).
        rewrite Hc, Ht, Hti. repeat split.
Qed.
End LoopFacts.

Lemma request_hit_entry (host : Host) (config : ApiConfig)
  (method endpoint : string) (opts : RequestOptions) (w : World)
  (e : CacheEntry) :
  useCache opts = true ->
  JsMap.get (cacheKey host method endpoint opts) (cache (cacheManager w)) = Some e ->
  Date_now host (ticks w) - timestamp e <= maxAge (options (cacheManager w)) ->
  truthy (value e) = true ->
  let r := request host config method endpoint opts w in
  fst r = Normal (value e) /\
  effects (snd r) = effects w /\
  cacheManager (snd r) = cacheManager w.
Proof.
  intros Huse Hk Hfresh Htruthy r.
  pose proof (@get_fresh_is_pure_aux (cacheManager w)
                (cacheKey host method endpoint opts) e (Date_now host (ticks w))
                Hk Hfresh) as Hget.
  assert (Hcached : cached host method endpoint opts w = value e)
    by (unfold cached; now rewrite Hget).
  subst r. rewrite request_hit.
  - rewrite Hcached. unfold looked_up. rewrite Hk. simpl. rewrite Hget. auto.
  - unfold cache_hit. now rewrite Huse, Hcached, Htruthy.
Qed.

(** X7.  With [useCache], an entry under the key of the request that is
    not expired and whose value is truthy is returned at once: no call of
    the transport, no wait, and the cache is as before. *)
Theorem request_returns_truthy_cached (host : Host) (config : ApiConfig)
  (method endpoint : string) (opts : RequestOptions) (w : World)
  (e : CacheEntry) :
  useCache opts = true ->
  JsMap.get (cacheKey host method endpoint opts) (cache (cacheManager w)) = Some e ->
  Date_now host (ticks w) - timestamp e <= maxAge (options (cacheManager w)) ->
  truthy (value e) = true ->
  let r := request host config method endpoint opts w in
  fst r = Normal (value e) /\
  effects (snd r) = effects w /\
  cacheManager (snd r) = cacheManager w.
Proof. apply request_hit_entry. Qed.

(** A world in which the response "ok" of [flaky_host] is cached. *)
Lemma request_returns_truthy_cached_witness :
  let w := snd (request flaky_host (demo_config 3) "GET" "/users" cached_request
                  (new_ApiClient [])) in
  let r := request flaky_host (demo_config 3) "GET" "/users" cached_request w in
  fst r = Normal (VStr "ok") /\
  effects (snd r) = effects w /\
  cacheManager (snd r) = cacheManager w.
Proof.
  apply (@request_returns_truthy_cached flaky_host (demo_config 3) "GET" "/users"
           cached_request
           (snd (request flaky_host (demo_config 3) "GET" "/users" cached_request
                   (new_ApiClient [])))
           {| value := VStr "ok"; timestamp := 0 |}).
  - reflexivity.
  - reflexivity.
  - vm_compute. discriminate.
  - reflexivity.
Defined.

Lemma ticks_looked_up host key w :
  ticks (looked_up host key w) =
  if JsMap.has key (cache (cacheManager w)) then S (ticks w) else ticks w.
Proof.
  unfold looked_up, JsMap.has.
  now destruct (JsMap.get key (cache (cacheManager w))).
Qed.

Lemma effects_looked_up host key w :
  effects (looked_up host key w) = effects w.
Proof.
  unfold looked_up. now destruct (JsMap.get key (cache (cacheManager w))).
Qed.

Lemma options_looked_up host key w :
  options (cacheManager (looked_up host key w)) = options (cacheManager w).
Proof.
  unfold looked_up.
  destruct (JsMap.get key (cache (cacheManager w))); [|reflexivity].
  simpl. apply options_get.
Qed.

(** X8.  A response fetched with [useCache] serves the next identical
    request: when a request misses the cache and its first attempt
    succeeds with a truthy value, that value is stored, and the same
    request made again within [maxAge] of the store resolves with it
    without any further call of the transport.  The store takes the
    reading of the clock that follows the readings taken so far, the one
    of the lookup included when the key was present (expired, or with a
    falsy value); the second lookup finds the entry and takes the
    reading after that. *)
Theorem request_twice_fetches_once (host : Host) (config : ApiConfig)
  (method endpoint : string) (opts : RequestOptions) (w : World)
  (v : JsValue) :
  useCache opts = true ->
  0 < retryAttempts config ->
  cache_hit host method endpoint opts w = false ->
  response_of (fetch host (fetch_count (effects w))) = Normal v ->
  truthy v = true ->
  let stored :=
    if JsMap.has (cacheKey host method endpoint opts) (cache (cacheManager w))
    then S (ticks w)
    else ticks w in
  Date_now host (S stored) - Date_now host stored
    <= maxAge (options (cacheManager w)) ->
  let r1 := request host config method endpoint opts w in
  let r2 := request host config method endpoint opts (snd r1) in
  fst r1 = Normal v /\
  effects (snd r1) =
    effects w ++ [Fetch (baseUrl config ++ endpoint)%string method] /\
  fst r2 = Normal v /\
  effects (snd r2) = effects (snd r1).
Proof.
  intros Huse HR Hmiss Hok Htruthy stored Hfresh r1 r2.
  assert (Hcached : truthy (cached host method endpoint opts w) = false).
  { unfold cache_hit in Hmiss. now rewrite Huse in Hmiss. }
  pose (w0 := looked_up host (cacheKey host method endpoint opts) w).
  assert (Heff0 : effects w0 = effects w).
  { subst w0. unfold looked_up.
    now destruct (JsMap.get _ (cache (cacheManager w))). }
  assert (Hticks : ticks w0 = stored)
    by (subst w0 stored; apply ticks_looked_up).
  assert (Hr1 : r1 =
    (Normal v,
     snd (cacheManager_set host (cacheKey host method endpoint opts) v
            (add_effects w0 [Fetch (baseUrl config ++ endpoint)%string method])))).
  { subst r1 w0. rewrite request_eq, Huse, Hcached.
    rewrite (@loop_success host config method endpoint opts 0 _ v);
      [| lia | now rewrite Heff0].
    now rewrite Huse. }
  assert (H2 : fst r2 = Normal v /\ effects (snd r2) = effects (snd r1)).
  { subst r2.
    destruct (@request_hit_entry host config method endpoint opts (snd r1)
                {| value := v; timestamp := Date_now host stored |})
      as (Hres & Heff & _); auto.
    - rewrite Hr1. simpl. rewrite Hticks. apply JsMapFacts.get_set_same.
    - rewrite Hr1. simpl. rewrite Hticks.
      destruct (_ >=? _); rewrite ?options_evictOldest;
        subst w0; rewrite options_looked_up; exact Hfresh. }
  destruct H2 as [Hres2 Heff2].
  split; [now rewrite Hr1|]. split; [rewrite Hr1; simpl; now rewrite Heff0|].
  split; assumption.
Qed.

Lemma request_twice_fetches_once_witness :
  let host :=
    {| JSON_stringify := fun _ => "undefined";
       fetch := fun _ => FetchResponse true 200 (inr (VNum 42));
       Date_now := fun k => Z.of_nat k |} in
  let r1 := request host (demo_config 3) "GET" "/answer" cached_request
              (new_ApiClient []) in
  let r2 := request host (demo_config 3) "GET" "/answer" cached_request (snd r1) in
  fst r1 = Normal (VNum 42) /\
  effects (snd r1) = [] ++ [Fetch "https://api.example.com/answer" "GET"] /\
  fst r2 = Normal (VNum 42) /\
  effects (snd r2) = effects (snd r1).
Proof.
  apply (@request_twice_fetches_once
           {| JSON_stringify := fun _ => "undefined";
              fetch := fun _ => FetchResponse true 200 (inr (VNum 42));
              Date_now := fun k => Z.of_nat k |}
           (demo_config 3) "GET" "/answer" cached_request (new_ApiClient [])
           (VNum 42)).
  - reflexivity.
  - simpl. lia.
  - reflexivity.
  - reflexivity.
  - reflexivity.
  - simpl. lia.
Defined.

(** X9.  Without [useCache] a request neither reads nor writes the cache:
    the cache, the clock readings taken and the timers are as before,
    whatever the transport answers. *)
Theorem request_without_useCache_keeps_cache (host : Host) (config : ApiConfig)
  (method endpoint : string) (opts : RequestOptions) (w : World) :
  useCache opts = false ->
  let r := request host config method endpoint opts w in
  cacheManager (snd r) = cacheManager w /\
  ticks (snd r) = ticks w /\
  timers (snd r) = timers w.
Proof.
  intros Huse r. subst r. rewrite request_eq, Huse.
  destruct (@loop_effects host config method endpoint opts
              (Z.to_nat (retryAttempts config - 0)) 0 w)
    as (es & _ & _ & _ & Hcache); [lia | reflexivity |].
  exact (Hcache Huse).
Qed.

Lemma request_without_useCache_keeps_cache_witness :
  let w := snd (request flaky_host (demo_config 3) "GET" "/users" cached_request
                  (new_ApiClient [])) in
  let r := request flaky_host (demo_config 3) "POST" "/users" plain_request w in
  cacheManager (snd r) = cacheManager w /\
  ticks (snd r) = ticks w /\
  timers (snd r) = timers w.
Proof.
  apply (@request_without_useCache_keeps_cache flaky_host (demo_config 3)
           "POST" "/users" plain_request).
  reflexivity.
Defined.

(** X10.  Whatever the transport answers and whatever the cache holds, a
    request only adds to what the client has done so far, calls the
    transport at most [retryAttempts] times (never, when [retryAttempts]
    is not positive), and waits only for [1000 * i] ms with
    [1 <= i < retryAttempts]. *)
Theorem request_effects_bounded (host : Host) (config : ApiConfig)
  (method endpoint : string) (opts : RequestOptions) (w : World) :
  exists es,
    effects (snd (request host config method endpoint opts w)) = effects w ++ es /\
    (fetch_count es <= Z.to_nat (retryAttempts config))%nat /\
    Forall (backoff_wait (retryAttempts config)) es.
Proof.
  rewrite request_eq.
  destruct (useCache opts);
    [destruct (truthy (cached host method endpoint opts w))|].
  - exists []. cbn [snd]. rewrite effects_looked_up, app_nil_r.
    split; [reflexivity|]. split; [apply Nat.le_0_l | constructor].
  - destruct (@loop_effects host config method endpoint opts
                (Z.to_nat (retryAttempts config - 0)) 0
                (looked_up host (cacheKey host method endpoint opts) w))
      as (es & Heff & Hcount & Hwaits & _); [lia | reflexivity |].
    exists es. rewrite Z.sub_0_r in Hcount.
    rewrite effects_looked_up in Heff. auto.
  - destruct (@loop_effects host config method endpoint opts
                (Z.to_nat (retryAttempts config - 0)) 0 w)
      as (es & Heff & Hcount & Hwaits & _); [lia | reflexivity |].
    exists es. rewrite Z.sub_0_r in Hcount. auto.
Qed.

(** X11.  When a request misses the cache, the first [k] calls of the
    transport fail and the next one succeeds, with [k < retryAttempts],
    the request resolves with that response after exactly [k + 1] calls,
    having waited [1000 * i] ms after the i-th failure. *)
Theorem request_succeeds_after_failures (host : Host) (config : ApiConfig)
  (method endpoint : string) (opts : RequestOptions) (w : World)
  (v : JsValue) (k : nat) :
  Z.of_nat k < retryAttempts config ->
  cache_hit host method endpoint opts w = false ->
  (forall i, (i < k)%nat -> fails (fetch host (fetch_count (effects w) + i))) ->
  response_of (fetch host (fetch_count (effects w) + k)) = Normal v ->
  let f := Fetch (baseUrl config ++ endpoint)%string method in
  let r := request host config method endpoint opts w in
  fst r = Normal v /\
  effects (snd r) = effects w ++ retry_prefix f 0 k ++ [f] /\
  fetch_count (effects (snd r)) = (fetch_count (effects w) + k + 1)%nat.
Proof.
  intros Hk Hmiss Hfail Hok f r. subst r.
  destruct (@request_miss host config method endpoint opts w Hmiss)
    as (w' & -> & Heff & _).
  rewrite (@loop_fail_then_success host config method endpoint opts v k 0 w');
    [| lia | now rewrite Heff | now rewrite Heff].
  cbv zeta. fold f.
  match goal with |- context [(Normal v, ?x)] => set (w2 := x) end.
  assert (Hw : effects w2 = effects w ++ retry_prefix f 0 k ++ [f]).
  { subst w2. destruct (useCache opts); simpl; now rewrite Heff. }
  cbn [fst snd].
  split; [reflexivity|]. split; [exact Hw|].
  rewrite Hw, !fetch_count_app.
  unfold f at 1. rewrite fetch_count_retry_prefix.
  change (fetch_count [f]) with 1%nat. lia.
Qed.

Lemma request_succeeds_after_failures_witness :
  let f := Fetch "https://api.example.com/users" "GET" in
  let r := request flaky_host (demo_config 5) "GET" "/users" plain_request
             (new_ApiClient []) in
  fst r = Normal (VStr "ok") /\
  effects (snd r) = [] ++ retry_prefix f 0 2 ++ [f] /\
  fetch_count (effects (snd r)) = (0 + 2 + 1)%nat.
Proof.
  apply (@request_succeeds_after_failures flaky_host (demo_config 5)
           "GET" "/users" plain_request (new_ApiClient []) (VStr "ok") 2).
  - simpl. lia.
  - reflexivity.
  - intros i Hi. exists (Error "Failed to fetch").
    destruct i as [|[|i]]; [reflexivity | reflexivity | lia].
  - reflexivity.
Defined.

(** * The authentication manager *)

Lemma handle_lt_fresh (timers0 : TimerTable) (t : IntervalTimer) :
  In t timers0 -> (handle t < fresh_handle timers0)%nat.
Proof.
  unfold fresh_handle. induction timers0 as [|t0 timers0 IH]; simpl; [tauto|].
  intros [->|Hin]; [lia|]. specialize (IH Hin). lia.
Qed.

Lemma clearInterval_other (timers0 : TimerTable) (h : nat) :
  (forall t, In t timers0 -> handle t <> h) ->
  clearInterval h timers0 = timers0.
Proof.
  intros Hne. unfold clearInterval. apply forallb_filter_id.
  apply forallb_forall. intros t Hin. apply negb_true_iff.
  apply Nat.eqb_neq. now apply Hne.
Qed.

Lemma clearInterval_fresh (timers0 : TimerTable) (ms : Z) :
  clearInterval (fresh_handle timers0)
    (timers0 ++ [{| handle := fresh_handle timers0; delay := ms |}]) = timers0.
Proof.
  unfold clearInterval. rewrite filter_app. simpl. rewrite Nat.eqb_refl. simpl.
  rewrite app_nil_r. apply clearInterval_other.
  intros t Hin. apply handle_lt_fresh in Hin. lia.
Qed.

Lemma auth_inv_step stringify base st o :
  auth_inv base st -> auth_inv base (Auth.step stringify st o).
Proof.
  destruct st as [[tok ri] [store timers0]]. unfold auth_inv. simpl.
  intros [(Htok & Hri & Ht)|(Htok & Hri & Ht)]; subst; destruct o as [tk ex|]; simpl.
  - right. repeat split; congruence.
  - left. repeat split.
  - right. rewrite clearInterval_fresh. repeat split; congruence.
  - left. rewrite clearInterval_fresh. repeat split.
Qed.

Lemma auth_inv_run stringify base ops : forall st,
  auth_inv base st -> auth_inv base (Auth.run stringify ops st).
Proof.
  unfold Auth.run. induction ops as [|o ops IH]; intros st Hinv; simpl; auto.
  apply IH. now apply auth_inv_step.
Qed.

(** X12.  The manager never leaves a refresh timer behind.  For a
    manager constructed while [localStorage] holds no ['auth_token'],
    whatever tokens arrive and whenever [logout] is called, the timer
    table holds the timers that were there before, untouched, and one
    refresh timer of 60000 ms exactly while a token is held; its handle
    is the one the manager keeps. *)
Theorem auth_single_refresh_timer (stringify : Auth.AuthToken -> string)
  (ops : list Auth.Op) (store : JsMap.t string) (base : TimerTable) :
  JsMap.get "auth_token" store = None ->
  let st := Auth.run stringify ops
              (Auth.initial, {| Auth.storage := store; Auth.intervals := base |}) in
  Auth.intervals (snd st) =
    base ++ match Auth.refreshInterval (fst st) with
            | Some h => [{| handle := h; delay := 60000 |}]
            | None => []
            end /\
  (Auth.refreshInterval (fst st) = None <-> Auth.currentToken (fst st) = None).
Proof.
  intros _ st.
  assert (Hinv : auth_inv base st).
  { apply auth_inv_run. left. repeat split. }
  destruct Hinv as [(Htok & Hri & Ht)|(Htok & Hri & Ht)]; rewrite Hri, Ht.
  - rewrite app_nil_r. repeat split; auto.
  - repeat split; [discriminate | contradiction].
Qed.

Lemma auth_single_refresh_timer_witness :
  let st := Auth.run (fun t => Auth.token t)
              [Auth.SetToken "abc" 100; Auth.SetToken "def" 200; Auth.Logout;
               Auth.SetToken "ghi" 300]
              (Auth.initial,
               {| Auth.storage := [];
                  Auth.intervals := [{| handle := 7; delay := 300000 |}] |}) in
  Auth.intervals (snd st) =
    [{| handle := 7; delay := 300000 |}] ++
    match Auth.refreshInterval (fst st) with
    | Some h => [{| handle := h; delay := 60000 |}]
    | None => []
    end /\
  (Auth.refreshInterval (fst st) = None <-> Auth.currentToken (fst st) = None).
Proof.
  apply (@auth_single_refresh_timer (fun t => Auth.token t)
           [Auth.SetToken "abc" 100; Auth.SetToken "def" 200; Auth.Logout;
            Auth.SetToken "ghi" 300]
           [] [{| handle := 7; delay := 300000 |}]).
  reflexivity.
Defined.

Lemma auth_storage_step stringify st o :
  JsMap.get "auth_token" (Auth.storage (snd st)) =
    option_map stringify (Auth.currentToken (fst st)) ->
  JsMap.get "auth_token" (Auth.storage (snd (Auth.step stringify st o))) =
    option_map stringify (Auth.currentToken (fst (Auth.step stringify st o))).
Proof.
  destruct st as [[tok ri] [store timers0]]. simpl. intros _.
  destruct o as [tk ex|]; simpl.
  - apply JsMapFacts.get_set_same.
  - destruct ri; simpl; apply JsMapFacts.get_delete_same.
Qed.

(** X13.  [localStorage] mirrors the token: starting without an
    ['auth_token'] item, after any arrivals of tokens and calls of
    [logout] the item is the JSON text of the token held, and there is no
    item when no token is held. *)
Theorem auth_storage_mirrors_token (stringify : Auth.AuthToken -> string)
  (ops : list Auth.Op) (store : JsMap.t string) (base : TimerTable) :
  JsMap.get "auth_token" store = None ->
  let st := Auth.run stringify ops
              (Auth.initial, {| Auth.storage := store; Auth.intervals := base |}) in
  JsMap.get "auth_token" (Auth.storage (snd st)) =
  option_map stringify (Auth.currentToken (fst st)).
Proof.
  intros Hnone st. subst st. unfold Auth.run.
  assert (Hinit : JsMap.get "auth_token"
                    (Auth.storage (snd (Auth.initial,
                       {| Auth.storage := store; Auth.intervals := base |}))) =
                  option_map stringify (Auth.currentToken (fst (Auth.initial,
                       {| Auth.storage := store; Auth.intervals := base |}))))
    by exact Hnone.
  revert Hinit.
  generalize (Auth.initial, {| Auth.storage := store; Auth.intervals := base |}) as st.
  induction ops as [|o ops IH]; intros st Hst; simpl; [exact Hst|].
  apply IH. now apply auth_storage_step.
Qed.

Lemma auth_storage_mirrors_token_witness :
  let st := Auth.run (fun t => Auth.token t)
              [Auth.SetToken "abc" 100; Auth.Logout; Auth.SetToken "def" 200]
              (Auth.initial,
               {| Auth.storage := [("theme", "dark")]; Auth.intervals := [] |}) in
  JsMap.get "auth_token" (Auth.storage (snd st)) =
  option_map (fun t => Auth.token t) (Auth.currentToken (fst st)).
Proof.
  apply (@auth_storage_mirrors_token (fun t => Auth.token t)
           [Auth.SetToken "abc" 100; Auth.Logout; Auth.SetToken "def" 200]
           [("theme", "dark")] []).
  reflexivity.
Defined.

(** * The headers of a request *)

Lemma get_spread (k : string) (src : list (string * string)) :
  forall obj,
  JsMap.get k (spread src obj) =
  match JsMap.get k (spread src JsMap.empty) with
  | Some v => Some v
  | None => JsMap.get k obj
  end.
Proof.
  unfold spread. induction src as [|[k' v'] src IH]; intros obj; simpl; [reflexivity|].
  rewrite IH. rewrite (IH [(k', v')]).
  destruct (JsMap.get k (fold_left _ src JsMap.empty)); [reflexivity|].
  destruct (string_dec k' k) as [->|Hne].
  - rewrite JsMapFacts.get_set_same. simpl. now rewrite String.eqb_refl.
  - rewrite JsMapFacts.get_set_other by assumption. simpl.
    destruct (String.eqb_spec k k'); [congruence | reflexivity].
Qed.

(** X14.  The headers that [executeRequest] sends.  While the manager is
    authenticated the ['Authorization'] header is ['Bearer '] followed by
    its token, whatever the caller passed under that name; otherwise the
    header is the caller's own, if any.  ['Content-Type'] is the caller's
    when the caller passes one and ['application/json'] otherwise. *)
Theorem request_headers_spec (auth : Auth.Manager) (now : Z)
  (opts : RequestOptions) :
  let own := spread (headers opts) JsMap.empty in
  let sent := request_headers auth now opts in
  (Auth.isAuthenticated now auth = true ->
   exists t,
     Auth.currentToken auth = Some t /\
     Auth.expiresAt t > now /\
     JsMap.get "Authorization" sent = Some ("Bearer " ++ Auth.token t)%string) /\
  (Auth.isAuthenticated now auth = false ->
   JsMap.get "Authorization" sent = JsMap.get "Authorization" own) /\
  JsMap.get "Content-Type" sent =
    match JsMap.get "Content-Type" own with
    | Some c => Some c
    | None => Some "application/json"
    end.
Proof.
  intros own sent. subst sent. unfold request_headers. split; [|split].
  - intros Hauth. rewrite Hauth. unfold Auth.isAuthenticated, Auth.getToken in *.
    destruct (Auth.currentToken auth) as [t|]; [|discriminate].
    exists t. split; [reflexivity|]. split; [now apply Z.gtb_lt in Hauth; lia|].
    rewrite get_spread. reflexivity.
  - intros Hauth. rewrite Hauth. simpl spread at 1.
    rewrite get_spread. fold own.
    destruct (JsMap.get "Authorization" own); reflexivity.
  - destruct (Auth.isAuthenticated now auth).
    + rewrite get_spread. simpl. rewrite get_spread. fold own.
      destruct (JsMap.get "Content-Type" own); reflexivity.
    + simpl spread at 1. rewrite get_spread. fold own.
      destruct (JsMap.get "Content-Type" own); reflexivity.
Qed.

(** * The form handler *)

Section MapAppend.
Variable V : Type.
Implicit Types (m : JsMap.t V) (k : string) (v : V).

Lemma get_app_fresh m1 m2 k :
  ~ In k (JsMap.keys m1) -> JsMap.get k (m1 ++ m2) = JsMap.get k m2.
Proof.
  induction m1 as [|[k' v'] m1 IH]; simpl; [reflexivity|].
  intros Hnotin. destruct (String.eqb_spec k k') as [->|]; [tauto|].
  apply IH. tauto.
Qed.

Lemma set_app_fresh m1 m2 k v :
  ~ In k (JsMap.keys m1) -> JsMap.set k v (m1 ++ m2) = m1 ++ JsMap.set k v m2.
Proof.
  induction m1 as [|[k' v'] m1 IH]; simpl; [reflexivity|].
  intros Hnotin. destruct (String.eqb_spec k k') as [->|]; [tauto|].
  rewrite IH; tauto.
Qed.
End MapAppend.

Lemma validated_invalid (field : Form.FormField) :
  (0 <? List.length (Form.errors (Form.validated field)))%nat =
  negb (Form.accepted field).
Proof.
  unfold Form.accepted, Form.validated. simpl.
  generalize (Form.value field) as x.
  induction (Form.validators field) as [|validator vs IH]; intros x; simpl;
    [reflexivity|].
  destruct (validator x); simpl; [reflexivity | apply IH].
Qed.

Lemma validateField_here (done todo : Form.t) (k : string)
  (field : Form.FormField) :
  ~ In k (JsMap.keys done) ->
  Form.validateField k (done ++ (k, field) :: todo) =
  done ++ (k, Form.validated field) :: todo.
Proof.
  intros Hnotin. unfold Form.validateField.
  rewrite get_app_fresh by assumption. simpl. rewrite String.eqb_refl.
  rewrite set_app_fresh by assumption. simpl. now rewrite String.eqb_refl.
Qed.

Lemma validateAll_from (todo : Form.t) : forall (done : Form.t) (b : bool),
  NoDup (JsMap.keys (done ++ todo)) ->
  JsMap.forEach
    (fun (acc : bool * Form.t) (_ : Form.FormField) name =>
       let fields' := Form.validateField name (snd acc) in
       let invalid :=
         match JsMap.get name fields' with
         | Some field => (0 <? List.length (Form.errors field))%nat
         | None => false
         end in
       (if invalid then false else fst acc, fields'))
    todo (b, done ++ todo) =
  (b && forallb Form.accepted (map snd todo),
   done ++ map (fun p => (fst p, Form.validated (snd p))) todo).
Proof.
  unfold JsMap.forEach.
  induction todo as [|[k field] todo IH]; intros done b Hnd; simpl.
  - now rewrite andb_true_r.
  - assert (Hnotin : ~ In k (JsMap.keys done)).
    { unfold JsMap.keys in *. rewrite map_app in Hnd. simpl in Hnd.
      apply NoDup_remove_2 in Hnd. intros Hin. apply Hnd.
      apply in_or_app. now left. }
    rewrite validateField_here by assumption.
    rewrite get_app_fresh by assumption. simpl. rewrite String.eqb_refl.
    rewrite validated_invalid.
    change (done ++ (k, Form.validated field) :: todo)
      with (done ++ [(k, Form.validated field)] ++ todo).
    rewrite app_assoc, IH.
    + rewrite <- app_assoc. simpl. f_equal.
      destruct (Form.accepted field); simpl; [reflexivity|].
      now destruct b.
    + unfold JsMap.keys in *. rewrite <- app_assoc.
      rewrite !map_app in *. exact Hnd.
Qed.

(** X15.  [setValue] on a field that exists stores the value and
    recomputes the errors of that field: they are the messages, in order,
    of the validators that reject the new value.  Other fields and the
    order of the fields are as before.  On a name that is no field,
    [setValue] does nothing. *)
Theorem setValue_revalidates (name v : string) (fields : Form.t) :
  match JsMap.get name fields with
  | Some field =>
      JsMap.get name (Form.setValue name v fields) =
      Some {| Form.value := v;
              Form.validators := Form.validators field;
              Form.errors :=
                Form.non_null (map (fun validator => validator v)
                                 (Form.validators field)) |}
  | None => Form.setValue name v fields = fields
  end /\
  (forall other, other <> name ->
     JsMap.get other (Form.setValue name v fields) = JsMap.get other fields) /\
  JsMap.keys (Form.setValue name v fields) = JsMap.keys fields.
Proof.
  unfold Form.setValue, Form.validateField.
  destruct (JsMap.get name fields) as [field|] eqn:Hget.
  - rewrite JsMapFacts.get_set_same. split; [|split].
    + now rewrite JsMapFacts.get_set_same.
    + intros other Hne. now rewrite !JsMapFacts.get_set_other by congruence.
    + rewrite !JsMapFacts.keys_set. unfold JsMap.has.
      now rewrite JsMapFacts.get_set_same, Hget.
  - repeat split.
Qed.

Lemma validateAll_eq (fields : Form.t) :
  JsMap.wf fields ->
  Form.validateAll fields =
  (forallb Form.accepted (map snd fields),
   map (fun p => (fst p, Form.validated (snd p))) fields).
Proof.
  intros Hwf. unfold Form.validateAll.
  apply (validateAll_from fields [] true). exact Hwf.
Qed.

(** X16.  [validateAll] recomputes the errors of every field from its
    current value, leaves values, validators and order alone, and returns
    [true] exactly when every validator of every field accepts the value
    of its field. *)
Theorem validateAll_spec (fields : Form.t) :
  JsMap.wf fields ->
  Form.validateAll fields =
  (forallb Form.accepted (map snd fields),
   map (fun p => (fst p, Form.validated (snd p))) fields).
Proof. apply validateAll_eq. Qed.

Lemma validateAll_spec_witness :
  let fields := Form.addField "email" "" [required]
                  (Form.addField "name" "Ann" [required] JsMap.empty) in
  Form.validateAll fields =
  (forallb Form.accepted (map snd fields),
   map (fun p => (fst p, Form.validated (snd p))) fields).
Proof.
  apply validateAll_spec.
  change (NoDup ["name"; "email"]).
  repeat (apply NoDup_cons; [simpl; intuition discriminate|]).
  apply NoDup_nil.
Defined.

(** The own properties that [forEach] collects into an object. *)
Lemma get_collected (V : Type) (g : Form.FormField -> V) (name : string)
  (fields : Form.t) : forall acc : JsMap.t V,
  NoDup (JsMap.keys fields) ->
  JsMap.get name
    (JsMap.forEach (fun obj field k => obj_assign k (g field) obj) fields acc) =
  if String.eqb name "__proto__" then JsMap.get name acc
  else match JsMap.get name fields with
       | Some field => Some (g field)
       | None => JsMap.get name acc
       end.
Proof.
  unfold JsMap.forEach.
  induction fields as [|[k field] fields IH]; intros acc Hnd; simpl.
  - now destruct (String.eqb name "__proto__").
  - simpl in Hnd. apply NoDup_cons_iff in Hnd as [Hnotin Hnd].
    rewrite IH by assumption. unfold obj_assign.
    destruct (String.eqb_spec name "__proto__") as [->|Hproto].
    + destruct (String.eqb_spec k "__proto__"); [reflexivity|].
      now rewrite JsMapFacts.get_set_other.
    + destruct (String.eqb_spec name k) as [->|Hne].
      * apply (proj2 (JsMapFacts.get_None_keys fields k)) in Hnotin.
        rewrite Hnotin.
        destruct (String.eqb_spec k "__proto__"); [congruence|].
        apply JsMapFacts.get_set_same.
      * destruct (JsMap.get name fields); [reflexivity|].
        destruct (String.eqb k "__proto__"); [reflexivity|].
        now rewrite JsMapFacts.get_set_other by congruence.
Qed.

(** X17.  [getValues] has one own property for every field, holding the
    value of the field, except that a field named ['__proto__'] gives
    none; it has no other own property. *)
Theorem getValues_spec (fields : Form.t) (name : string) :
  JsMap.wf fields ->
  JsMap.get name (Form.getValues fields) =
  if String.eqb name "__proto__" then None
  else option_map Form.value (JsMap.get name fields).
Proof.
  intros Hwf. unfold Form.getValues.
  rewrite (@get_collected string Form.value name fields JsMap.empty Hwf).
  destruct (String.eqb name "__proto__"); [reflexivity|].
  now destruct (JsMap.get name fields).
Qed.

Lemma getValues_spec_witness :
  JsMap.get "name"
    (Form.getValues (Form.addField "__proto__" "x" []
                       (Form.addField "name" "Ann" [required] JsMap.empty))) =
  if String.eqb "name" "__proto__" then None
  else option_map Form.value
         (JsMap.get "name" (Form.addField "__proto__" "x" []
                              (Form.addField "name" "Ann" [required] JsMap.empty))).
Proof.
  apply getValues_spec.
  change (NoDup ["name"; "__proto__"]).
  repeat (apply NoDup_cons; [simpl; intuition discriminate|]).
  apply NoDup_nil.
Defined.

(** X18.  [addField] does not validate.  A field added with a value that
    one of its validators rejects has no errors in [getErrors] until it
    is validated, although [validateAll] returns [false] for the form;
    after [validateAll] its errors are the messages of the validators
    that reject the value. *)
Theorem addField_defers_validation (name v : string)
  (vs : list Form.Validator) (fields : Form.t) :
  JsMap.wf fields ->
  name <> "__proto__" ->
  (exists validator, In validator vs /\ validator v <> None) ->
  let fields' := Form.addField name v vs fields in
  JsMap.get name (Form.getErrors fields') = Some [] /\
  fst (Form.validateAll fields') = false /\
  JsMap.get name (Form.getErrors (snd (Form.validateAll fields'))) =
    Some (Form.non_null (map (fun validator => validator v) vs)).
Proof.
  intros Hwf Hname (validator & Hin & Hrej) fields'.
  assert (Hwf' : JsMap.wf fields') by (now apply JsMapFacts.wf_set).
  assert (Hget : JsMap.get name fields' =
                 Some {| Form.value := v; Form.validators := vs; Form.errors := [] |})
    by apply JsMapFacts.get_set_same.
  assert (Hproto : String.eqb name "__proto__" = false)
    by (now apply String.eqb_neq).
  rewrite (validateAll_eq Hwf'). cbn [fst snd].
  split; [|split].
  - unfold Form.getErrors.
    rewrite (@get_collected (list string) Form.errors name fields' JsMap.empty Hwf').
    now rewrite Hproto, Hget.
  - apply not_true_is_false. intros Hall.
    rewrite forallb_forall in Hall.
    apply JsMapFacts.get_In in Hget. apply (in_map snd) in Hget.
    specialize (Hall _ Hget). unfold Form.accepted in Hall. simpl in Hall.
    rewrite forallb_forall in Hall. specialize (Hall validator Hin).
    destruct (validator v); [discriminate | congruence].
  - unfold Form.getErrors.
    rewrite get_collected.
    + rewrite Hproto.
      replace (JsMap.get name (map (fun p => (fst p, Form.validated (snd p))) fields'))
        with (option_map Form.validated (JsMap.get name fields')).
      * now rewrite Hget.
      * clear. induction fields' as [|[k f] l IH]; simpl; [reflexivity|].
        destruct (String.eqb name k); [reflexivity | exact IH].
    + unfold JsMap.keys. rewrite map_map. exact Hwf'.
Qed.

Lemma addField_defers_validation_witness :
  let fields' := Form.addField "email" "" [required] JsMap.empty in
  JsMap.get "email" (Form.getErrors fields') = Some [] /\
  fst (Form.validateAll fields') = false /\
  JsMap.get "email" (Form.getErrors (snd (Form.validateAll fields'))) =
    Some (Form.non_null (map (fun validator => validator "") [required])).
Proof.
  apply (@addField_defers_validation "email" "" [required] JsMap.empty).
  - apply NoDup_nil.
  - discriminate.
  - exists required. split; [left; reflexivity | discriminate].
Defined.

(** * The error handler *)

Lemma invoked_app (es1 es2 : list Errors.Effect) :
  Errors.invoked (es1 ++ es2) = Errors.invoked es1 ++ Errors.invoked es2.
Proof. unfold Errors.invoked. apply flat_map_app. Qed.

Lemma invoked_notifyListeners throws (this : Errors.ErrorHandler) (error : JsError) :
  Errors.invoked (Errors.notifyListeners throws this error) =
  Errors.errorListeners this.
Proof.
  unfold Errors.notifyListeners.
  induction (Errors.errorListeners this) as [|l ls IH]; simpl; [reflexivity|].
  rewrite invoked_app, IH. now destruct (throws l error).
Qed.

Lemma invoked_handleError throws (this : Errors.ErrorHandler) (error : JsError) :
  Errors.invoked (Errors.handleError throws this error) =
  Errors.errorListeners this.
Proof.
  unfold Errors.handleError.
  rewrite !invoked_app, invoked_notifyListeners.
  destruct (Errors.logErrors _), (Errors.showErrorModal _),
    (Errors.errorReportingUrl _) as [url|]; simpl;
    try destruct (negb (String.eqb url "")); reflexivity.
Qed.

(** X19.  [handleError] calls every registered listener, once for each
    time it was registered and in the order of registration, whatever
    the configuration and whichever listeners throw: a listener that
    throws does not keep the later ones from being called. *)
Theorem handleError_calls_every_listener
  (throws : Errors.Listener -> JsError -> bool) (this : Errors.ErrorHandler)
  (error : JsError) :
  Errors.invoked (Errors.handleError throws this error) =
  Errors.errorListeners this.
Proof. apply invoked_handleError. Qed.

(** X20.  After [removeErrorListener(l)], [handleError] no longer calls
    [l], however many times [l] had been added, and calls the other
    listeners as before, in the same order. *)
Theorem removed_listener_is_never_called
  (throws : Errors.Listener -> JsError -> bool) (this : Errors.ErrorHandler)
  (l : Errors.Listener) (error : JsError) :
  let es := Errors.handleError throws
              (Errors.removeErrorListener l
                 (Errors.addErrorListener l (Errors.addErrorListener l this)))
              error in
  ~ In l (Errors.invoked es) /\
  Errors.invoked es =
  filter (fun l' => negb (Nat.eqb l' l))
    (Errors.invoked (Errors.handleError throws this error)).
Proof.
  intros es. subst es. rewrite !invoked_handleError. simpl.
  rewrite <- !app_assoc, filter_app. simpl. rewrite Nat.eqb_refl. simpl.
  rewrite app_nil_r. split; [|reflexivity].
  intros Hin. apply filter_In in Hin as [_ Hne].
  now rewrite Nat.eqb_refl in Hne.
Qed.

Lemma getInstances_set (cfgs : list (option Errors.ErrorHandlerConfig))
  (s : Errors.Static) (h : Errors.ErrorHandler) :
  Errors.instance s = Some h -> Errors.getInstances cfgs s = s.
Proof.
  unfold Errors.getInstances. intros Hs.
  induction cfgs as [|cfg cfgs IH]; [reflexivity|].
  cbn [fold_left].
  replace (snd (Errors.getInstance cfg s)) with s
    by (unfold Errors.getInstance; now rewrite Hs).
  exact IH.
Qed.

(** X21.  The handler is a singleton configured once: after any calls of
    [getInstance], the instance is the one made from the first
    configuration that was passed, later configurations are ignored, and
    the global handlers were installed once; while no configuration has
    been passed there is no instance and [getInstance] returns
    [undefined]. *)
Theorem getInstance_first_config_wins
  (cfgs : list (option Errors.ErrorHandlerConfig)) :
  let s := Errors.getInstances cfgs
             {| Errors.instance := None; Errors.installed := 0 |} in
  Errors.instance s =
    option_map (fun c => {| Errors.config := c; Errors.errorListeners := [] |})
      (Errors.first_config cfgs) /\
  Errors.installed s =
    match Errors.first_config cfgs with Some _ => 1%nat | None => 0%nat end /\
  (forall cfg, fst (Errors.getInstance cfg s) =
               match Errors.instance s with
               | Some h => Some h
               | None => option_map
                           (fun c => {| Errors.config := c; Errors.errorListeners := [] |})
                           cfg
               end).
Proof.
  intros s. subst s.
  induction cfgs as [|[c|] cfgs IH].
  - split; [reflexivity|]. split; [reflexivity|]. intros [c|]; reflexivity.
  - replace (Errors.getInstances (Some c :: cfgs)
               {| Errors.instance := None; Errors.installed := 0 |})
      with {| Errors.instance :=
                Some {| Errors.config := c; Errors.errorListeners := [] |};
              Errors.installed := 1 |}.
    + split; [reflexivity|]. split; [reflexivity|]. intros cfg. reflexivity.
    + symmetry.
      apply (@getInstances_set cfgs _
               {| Errors.config := c; Errors.errorListeners := [] |}).
      reflexivity.
  - exact IH.
Qed.

(** * The router and the app *)

Lemma get_fold_set (V : Type) (k : string) (rs : list (string * V)) :
  forall m : JsMap.t V,
  JsMap.get k (fold_left (fun o p => JsMap.set (fst p) (snd p) o) rs m) =
  match find (fun q => String.eqb (fst q) k) (rev rs) with
  | Some q => Some (snd q)
  | None => JsMap.get k m
  end.
Proof.
  induction rs as [|[k' v'] rs IH] using rev_ind; intros m; [reflexivity|].
  rewrite fold_left_app, rev_app_distr. simpl.
  destruct (String.eqb_spec k' k) as [->|Hne].
  - apply JsMapFacts.get_set_same.
  - rewrite JsMapFacts.get_set_other by assumption. apply IH.
Qed.

(** X22.  The router dispatches to the handler registered last for the
    path of the page, and to nothing when the path has no route; it
    records the path either way.  The constructor dispatches before any
    route exists, so it calls no handler, wherever the page is. *)
Theorem handleRoute_latest_route (Handler : Type) (at_load p : string)
  (rs : list (string * Handler)) :
  let r := Routing.addRoutes rs (fst (Routing.new_Router Handler at_load)) in
  snd (Routing.new_Router Handler at_load) = None /\
  Routing.currentPath r = at_load /\
  snd (Routing.handleRoute p r) =
    option_map snd (find (fun q => String.eqb (fst q) p) (rev rs)) /\
  Routing.currentPath (fst (Routing.handleRoute p r)) = p.
Proof.
  intros r. split; [reflexivity|].
  assert (Hr : forall r0 : Routing.Router Handler,
             Routing.routes (Routing.addRoutes rs r0) =
             fold_left (fun o q => JsMap.set (fst q) (snd q) o) rs (Routing.routes r0) /\
             Routing.currentPath (Routing.addRoutes rs r0) = Routing.currentPath r0).
  { unfold Routing.addRoutes. induction rs as [|q rs IH]; intros r0; simpl; [auto|].
    destruct (IH (Routing.addRoute (fst q) (snd q) r0)) as [-> ->]. auto. }
  destruct (Hr (fst (Routing.new_Router Handler at_load))) as [Hroutes Hpath].
  split; [exact Hpath|]. split; [|reflexivity].
  unfold Routing.handleRoute. simpl. subst r. rewrite Hroutes, get_fold_set.
  simpl. now destruct (find _ (rev rs)).
Qed.

Lemma live_app (es1 es2 : list Routing.Effect) : forall current,
  Routing.live current (es1 ++ es2) =
  match Routing.live current es1 with
  | Some current' => Routing.live current' es2
  | None => None
  end.
Proof.
  induction es1 as [|[key|key] es1 IH]; intros current; simpl; [reflexivity| |].
  - destruct current as [c|]; [|reflexivity].
    destruct (String.eqb c key); [apply IH | reflexivity].
  - destruct current as [c|]; [reflexivity | apply IH].
Qed.

Lemma app_inv_dispatch (app : Routing.App) (log : list Routing.Effect)
  (p : string) :
  app_inv (app, log) ->
  let app' :=
    {| Routing.router := fst (Routing.handleRoute p (Routing.router app));
       Routing.currentExploration := Routing.currentExploration app;
       Routing.pathname := p |} in
  let r := Routing.dispatch (snd (Routing.handleRoute p (Routing.router app))) app' in
  app_inv (fst r, log ++ snd r).
Proof.
  intros [(es & Hlog & Hlive) Hroutes] app' r. cbn [fst snd] in Hlog, Hlive, Hroutes.
  subst r app'. unfold Routing.handleRoute. cbn [fst snd].
  destruct (JsMap.get p (Routing.routes (Routing.router app))) as [key|] eqn:Hget;
    cbn [Routing.dispatch].
  - unfold Routing.showExploration.
    cbn [Routing.currentExploration Routing.router Routing.pathname].
    rewrite (Hroutes p key Hget).
    split; cbn [fst snd Routing.currentExploration Routing.router Routing.routes].
    + eexists. split; [rewrite Hlog, <- app_assoc; reflexivity|].
      rewrite live_app, Hlive.
      destruct (Routing.currentExploration app) as [c|]; simpl;
        [now rewrite String.eqb_refl | reflexivity].
    + exact Hroutes.
  - split; cbn [fst snd Routing.currentExploration Routing.router Routing.routes];
      [|exact Hroutes].
    exists es. split; [now rewrite app_nil_r | exact Hlive].
Qed.

Lemma app_inv_react pushState (e : Routing.Event)
  (st : Routing.App * list Routing.Effect) :
  app_inv st ->
  app_inv (let '(app, es) := Routing.react pushState e (fst st) in
           (app, snd st ++ es)).
Proof.
  destruct st as [app log]. intros Hinv. cbn [fst snd].
  assert (Hsame : app_inv (app, log ++ [])) by (now rewrite app_nil_r).
  destruct e as [path|p]; simpl Routing.react.
  - unfold Routing.click. destruct (truthy (VStr path)); [|exact Hsame].
    unfold Routing.navigate.
    destruct (pushState (Routing.pathname app) ("/" ++ path)%string) as [p|];
      [|exact Hsame].
    pose proof (@app_inv_dispatch app log p Hinv) as H. cbv zeta in H.
    destruct (Routing.handleRoute p (Routing.router app)) as [r found].
    cbn [fst snd] in H.
    destruct (Routing.dispatch found _) as [app2 es]. exact H.
  - unfold Routing.popstate.
    pose proof (@app_inv_dispatch app log p Hinv) as H. cbv zeta in H.
    destruct (Routing.handleRoute p (Routing.router app)) as [r found].
    cbn [fst snd] in H.
    destruct (Routing.dispatch found _) as [app2 es]. exact H.
Qed.

Lemma app_inv_new (at_load : string) : app_inv (Routing.new_App at_load).
Proof.
  split.
  - exists []. split; reflexivity.
  - intros p key Hget.
    change (Routing.routes (Routing.router (fst (Routing.new_App at_load))))
      with app_routes in Hget.
    apply JsMapFacts.get_In in Hget.
    unfold app_routes in Hget. apply in_map_iff in Hget as (k & Hk & Hin).
    inversion Hk; subst. apply existsb_exists. exists key.
    split; [exact Hin | apply String.eqb_refl].
Qed.

(** X23.  Once constructed, the app shows one exploration at a time.
    Wherever the page was loaded, whatever is clicked, wherever the
    history moves the page and whatever [pushState] does, what the app
    does after the initialisations of its construction is in order: it
    initialises an exploration only after cleaning up the one it showed
    before, it cleans up only the exploration it holds as current, and
    the current one is the one initialised last.  (The explorations that
    initialised themselves during construction are not cleaned up before
    the first one is shown.) *)
Theorem app_shows_one_exploration_at_a_time
  (pushState : string -> string -> option string) (at_load : string)
  (events : list Routing.Event) :
  let st := Routing.run pushState events (Routing.new_App at_load) in
  exists es,
    snd st = Routing.constructed ++ es /\
    Routing.live None es = Some (Routing.currentExploration (fst st)).
Proof.
  intros st.
  assert (Hinv : app_inv st).
  { subst st. unfold Routing.run.
    generalize (app_inv_new at_load).
    generalize (Routing.new_App at_load) as st0.
    induction events as [|e events IH]; intros st0 Hinv; simpl; [exact Hinv|].
    apply IH. now apply app_inv_react. }
  exact (proj1 Hinv).
Qed.

Lemma click_known pushState (key : string) (app : Routing.App) :
  In key Routing.explorations ->
  Routing.routes (Routing.router app) = app_routes ->
  (forall p, pushState p ("/" ++ key)%string = Some ("/" ++ key)%string) ->
  Routing.click pushState key app =
  ({| Routing.router :=
        {| Routing.routes := app_routes;
           Routing.currentPath := ("/" ++ key)%string |};
      Routing.currentExploration := Some key;
      Routing.pathname := ("/" ++ key)%string |},
   Routing.shown (Routing.currentExploration app) [key]).
Proof.
  intros Hin Hroutes Hpush.
  assert (Hclick : Routing.click pushState key app =
                   Routing.navigate pushState ("/" ++ key)%string app).
  { unfold Routing.click.
    repeat (destruct Hin as [<-|Hin]; [reflexivity|]). destruct Hin. }
  rewrite Hclick. unfold Routing.navigate. rewrite Hpush.
  unfold Routing.handleRoute. rewrite Hroutes.
  assert (Hget : JsMap.get ("/" ++ key)%string app_routes = Some key).
  { repeat (destruct Hin as [<-|Hin]; [reflexivity|]). destruct Hin. }
  rewrite Hget. simpl Routing.dispatch. unfold Routing.showExploration.
  assert (Hex : existsb (String.eqb key) Routing.explorations = true).
  { apply existsb_exists. exists key. split; [exact Hin | apply String.eqb_refl]. }
  rewrite Hex. cbn [Routing.router Routing.currentExploration Routing.pathname].
  now destruct (Routing.currentExploration app).
Qed.

Lemma last_cons_default (A : Type) (x : A) (l : list A) (d d' : A) :
  last (x :: l) d = last (x :: l) d'.
Proof.
  revert x. induction l as [|y l IH]; intros x; [reflexivity|].
  change (last (y :: l) d = last (y :: l) d'). apply IH.
Qed.

Lemma clicks_shown pushState (keys : list string) :
  Forall (fun key => In key Routing.explorations) keys ->
  (forall p key, In key Routing.explorations ->
     pushState p ("/" ++ key)%string = Some ("/" ++ key)%string) ->
  forall st0 : Routing.App * list Routing.Effect,
  Routing.routes (Routing.router (fst st0)) = app_routes ->
  snd (Routing.run pushState (map Routing.Click keys) st0) =
    snd st0 ++ Routing.shown (Routing.currentExploration (fst st0)) keys /\
  Routing.currentExploration
    (fst (Routing.run pushState (map Routing.Click keys) st0)) =
    last (map Some keys) (Routing.currentExploration (fst st0)).
Proof.
  intros Hkeys Hpush. unfold Routing.run.
  induction Hkeys as [|key keys Hkey Hkeys IH]; intros [app log] Hroutes.
  - simpl. now rewrite app_nil_r.
  - cbn [map fold_left fst snd Routing.react] in *.
    rewrite (@click_known pushState key app Hkey Hroutes
               (fun p => Hpush p key Hkey)).
    destruct (IH ({| Routing.router :=
                       {| Routing.routes := app_routes;
                          Routing.currentPath := ("/" ++ key)%string |};
                     Routing.currentExploration := Some key;
                     Routing.pathname := ("/" ++ key)%string |},
                  log ++ Routing.shown (Routing.currentExploration app) [key])
                eq_refl) as [Heff Hcur].
    cbn [fst snd Routing.currentExploration] in Heff, Hcur.
    rewrite Heff, Hcur. split.
    + rewrite <- app_assoc. f_equal.
      destruct (Routing.currentExploration app); reflexivity.
    + destruct keys as [|key' keys']; [reflexivity|].
      cbn [map].
      change (last (Some key :: Some key' :: map Some keys')
                (Routing.currentExploration app))
        with (last (Some key' :: map Some keys') (Routing.currentExploration app)).
      apply last_cons_default.
Qed.

(** X24.  The construction of the app routes nowhere: wherever the page
    is, the path of an exploration included, the router dispatches
    before the routes exist, so beyond the initialisations that the
    constructors of the explorations make, nothing is shown and no
    exploration is current.  From then on, with [pushState] moving the
    page to the path it is given, clicking the links of explorations one
    after another initialises the first and, for each later one, cleans
    up the exploration on show and then initialises the one clicked; the
    last one clicked is the current one. *)
Theorem app_shows_what_is_clicked
  (pushState : string -> string -> option string) (at_load : string)
  (keys : list string) :
  Forall (fun key => In key Routing.explorations) keys ->
  (forall p key, In key Routing.explorations ->
     pushState p ("/" ++ key)%string = Some ("/" ++ key)%string) ->
  let st := Routing.run pushState (map Routing.Click keys)
              (Routing.new_App at_load) in
  snd (Routing.new_App at_load) = Routing.constructed /\
  Routing.currentExploration (fst (Routing.new_App at_load)) = None /\
  snd st = Routing.constructed ++ Routing.shown None keys /\
  Routing.currentExploration (fst st) = last (map Some keys) None.
Proof.
  intros Hkeys Hpush st. split; [reflexivity|]. split; [reflexivity|].
  destruct (@clicks_shown pushState keys Hkeys Hpush (Routing.new_App at_load) eq_refl)
    as [Heff Hcur].
  subst st. rewrite Heff, Hcur. split; reflexivity.
Qed.

Lemma app_shows_what_is_clicked_witness :
  let st := Routing.run (fun _ url => Some url)
              (map Routing.Click ["hooks"; "build"; "build"])
              (Routing.new_App "/hooks") in
  snd (Routing.new_App "/hooks") = Routing.constructed /\
  Routing.currentExploration (fst (Routing.new_App "/hooks")) = None /\
  snd st = Routing.constructed ++ Routing.shown None ["hooks"; "build"; "build"] /\
  Routing.currentExploration (fst st) =
    last (map Some ["hooks"; "build"; "build"]) None.
Proof.
  apply (@app_shows_what_is_clicked (fun _ url => Some url) "/hooks"
           ["hooks"; "build"; "build"]).
  - repeat constructor; simpl; tauto.
  - intros p key _. reflexivity.
Defined.
